(** * relearn: a tabular reinforcement-learning library

    A shallow embedding of [src/relearn.hpp]: the identity wrappers [state]
    and [action], the [link] of an episode, the [policy] table with its
    subscript-based reads and writes, and the two update algorithms
    [q_learning] (deterministic) and [q_probabilistic] (frequency based).

    Conventions of the embedding.
    - [std::unordered_map<K,T>] is a [gmap K T].  Keys are compared with the
      wrappers' [operator==], which looks at the trait only, so tables are
      keyed by the trait; the [hasher] functors only place keys in buckets
      and do not appear in a table ([hash_combine] and the wrappers' [hash]
      are modelled on their own; the functors of the maps fold into a seed
      they never initialise and are left out).
    - [operator[]] inserts a value-initialised entry when the key is absent:
      every read through it returns the table it leaves behind.
    - The order in which an [unordered_map] is traversed is not fixed by the
      language; it is an [Iteration] the definitions are parametric in.
    - [value_type] is a template parameter (default [double]): the code is
      parametric in a [ValueType]; [double] is the instance on binary64.  The
      table and the algorithms share it, as they do with the defaults.
    - [unsigned int] and [std::size_t] are integers in [Z] with the
      wrap-around written out.
    - Out-of-range indexing and integer division by zero are undefined
      behaviour in C++: they are the [Undefined] outcomes.  Loops carry fuel. *)

From Stdlib Require Import ZArith Floats.
From stdpp Require Import base option list gmap.

Set Warnings "-inexact-float".

#[local] Open Scope Z_scope.

(** ** Machine integers *)

(** [unsigned int]: the type of the loop counters and of [index]. *)
Definition uint_wrap (x : Z) : Z := x mod 2 ^ 32.

(** [std::size_t]: the type of [size()] and of the frequency counts. *)
Definition size_wrap (x : Z) : Z := x mod 2 ^ 64.

(** ** Outcomes of a call *)

Inductive undefined : Set :=
| OutOfBounds      (* [episode[i]] with [i >= episode.size()] *)
| DivisionByZero.  (* [x / 0] on [std::size_t] *)

Inductive outcome (A : Type) : Type :=
| Done (x : A)
| Undefined (u : undefined)
| OutOfFuel.

Arguments Done {A} x.
Arguments Undefined {A} u.
Arguments OutOfFuel {A}.

#[global] Instance outcome_ret : MRet outcome := λ A x, Done x.

#[global] Instance outcome_bind : MBind outcome := λ A B k o,
  match o with
  | Done x => k x
  | Undefined u => Undefined u
  | OutOfFuel => OutOfFuel
  end.

(** [for (unsigned int i = start; i < n; i++) body], [n] a [std::size_t]. *)
Fixpoint for_loop {St : Type} (fuel : nat) (n : Z)
    (body : Z → St → outcome St) (i : Z) (st : St) : outcome St :=
  match fuel with
  | O => OutOfFuel
  | S fuel' =>
      if i <? n then
        st' ← body i st;
        for_loop fuel' n body (uint_wrap (i + 1)) st'
      else Done st
  end.

(** ** The value type *)

(** What the code asks of [value_type]: a zero (value initialisation and the
    literal [0.]), [+], [-], [*], [<] and the conversion from [std::size_t]. *)
Class ValueType (V : Type) : Type := {
  v_zero : V;
  v_add : V → V → V;
  v_sub : V → V → V;
  v_mul : V → V → V;
  v_lt : V → V → bool;
  v_of_size_t : Z → V;
}.

(** [double]: IEEE 754 binary64; an integer converts by rounding to nearest. *)
#[global] Instance double : ValueType float := {|
  v_zero := 0%float;
  v_add := PrimFloat.add;
  v_sub := PrimFloat.sub;
  v_mul := PrimFloat.mul;
  v_lt := PrimFloat.ltb;
  v_of_size_t := λ z, SF2Prim (binary_normalize prec emax z 0 false);
|}.

(** ** Containers *)

(** [std::unordered_map::operator[]]: the mapped value, inserted
    value-initialised ([dflt]) when the key is absent, and the map after. *)
Definition subscript `{Countable K} {T : Type}
    (dflt : T) (m : gmap K T) (k : K) : T * gmap K T :=
  match m !! k with
  | Some x => (x, m)
  | None => (dflt, <[k := dflt]> m)
  end.

(** [std::deque::operator[]] at an unsigned index: undefined out of range. *)
Definition deque_at {T : Type} (d : list T) (n : Z) : outcome T :=
  match d !! Z.to_nat n with
  | Some x => Done x
  | None => Undefined OutOfBounds
  end.

(** [std::deque::size]. *)
Definition deque_size {T : Type} (d : list T) : Z := Z.of_nat (length d).

(** [std::max_element(first, last, comp)] on the traversed entries: the
    first entry that [comp] puts below no later one; [None] is [last]. *)
Fixpoint max_element_from {T : Type} (comp : T → T → bool)
    (largest : T) (rest : list T) : T :=
  match rest with
  | [] => largest
  | x :: rest' =>
      max_element_from comp (if comp largest x then x else largest) rest'
  end.

Definition max_element {T : Type} (comp : T → T → bool) (l : list T) : option T :=
  match l with
  | [] => None
  | x :: rest => Some (max_element_from comp x rest)
  end.

(** [comp] restricted to the entries of [u] is a strict weak ordering: what
    [std::max_element] asks of its comparison. *)
Definition strict_weak_on {T : Type} (comp : T → T → bool) (u : list T) : Prop :=
  ∀ a b c, a ∈ u → b ∈ u → c ∈ u →
    comp a b = true → comp b a = false ∧ (comp a c = true ∨ comp c b = true).

(** The same, as a check that runs on a given list of entries. *)
Definition strict_weak_check {T : Type} (comp : T → T → bool) (u : list T) : bool :=
  forallb (λ a, forallb (λ b, forallb (λ c,
    implb (comp a b) (negb (comp b a) && (comp a c || comp c b))) u) u) u.

(** The traversal order of an [unordered_map] ([begin()] to [end()]): some
    enumeration of its entries, each once. *)
Class Iteration (K T : Type) `{Countable K} : Type := {
  iterate : gmap K T → list (K * T);
  iterate_entries : ∀ m, iterate m ≡ₚ map_to_list m;
}.

(** One such order: the one [map_to_list] lists the entries in. *)
Definition canonical_iteration (K T : Type) `{Countable K} : Iteration K T :=
  {| iterate := map_to_list; iterate_entries := λ m, reflexivity (map_to_list m) |}.

(** Another: the same entries from the last to the first. *)
Definition reversed_iteration (K T : Type) `{Countable K} : Iteration K T :=
  {| iterate := λ m, reverse (map_to_list m);
     iterate_entries := λ m, reverse_Permutation (map_to_list m) |}.

(** ** States, actions, links and the policy table *)

(** [policy::action_map], a type alias. *)
Abbreviation action_map action_trait value_type :=
  (gmap action_trait value_type).

Section model.
Context {state_trait action_trait value_type : Type}.
Context `{Countable state_trait} `{Countable action_trait}.
Context `{!ValueType value_type}.
Context `{!Iteration action_trait value_type}.

(** [class state]: [__reward__] and [__trait__]. *)
Record state : Type := State { s_reward : value_type; s_trait : state_trait }.

(** [state(trait)]: no reward.  [state(reward, trait)] is [State]. *)
Definition plain_state (trait : state_trait) : state := State v_zero trait.

(** [class action]: [__trait__]. *)
Record action : Type := Action { a_trait : action_trait }.

(** [state::operator==] and [action::operator==]: the traits decide. *)
Definition state_eqb (x y : state) : bool := bool_decide (s_trait x = s_trait y).
Definition action_eqb (x y : action) : bool := bool_decide (a_trait x = a_trait y).

(** [struct link]. *)
Record link : Type := Link { l_state : state; l_action : action }.

(** [link::operator==]: both components are equal. *)
Definition link_eqb (x y : link) : bool :=
  action_eqb (l_action x) (l_action y) && state_eqb (l_state x) (l_state y).

(** [class policy] with its [__policies__]. *)
Record policy : Type :=
  Policy { policies : gmap state_trait (action_map action_trait value_type) }.

(** The actions on record for a state: empty when the state is absent. *)
Definition recorded (p : policy) (s_t : state) : action_map action_trait value_type :=
  default ∅ (policies p !! s_trait s_t).

(** [return __policies__[s_t];] *)
Definition actions (p : policy) (s_t : state)
    : action_map action_trait value_type * policy :=
  let '(am, m) := subscript ∅ (policies p) (s_trait s_t) in
  (am, Policy m).

(** [__policies__[s_t][a_t] = q;] *)
Definition update (p : policy) (s_t : state) (a_t : action) (q : value_type) : policy :=
  let '(am, m) := subscript ∅ (policies p) (s_trait s_t) in
  let '(_, am') := subscript v_zero am (a_trait a_t) in
  Policy (<[s_trait s_t := <[a_trait a_t := q]> am']> m).

(** [return __policies__[s_t][a_t];] *)
Definition value (p : policy) (s_t : state) (a_t : action) : value_type * policy :=
  let '(am, m) := subscript ∅ (policies p) (s_trait s_t) in
  let '(v, am') := subscript v_zero am (a_trait a_t) in
  (v, Policy (<[s_trait s_t := am']> m)).

(** The lambda of [best_value] and [best_action]: [lhs.second < rhs.second]. *)
Definition by_second (lhs rhs : action_trait * value_type) : bool :=
  v_lt lhs.2 rhs.2.

(** [max_element] over [__policies__[s_t]]; [it->second], or [0.] at [end()]. *)
Definition best_value (p : policy) (s_t : state) : value_type * policy :=
  let '(am, m) := subscript ∅ (policies p) (s_trait s_t) in
  match max_element by_second (iterate am) with
  | Some it => (it.2, Policy m)
  | None => (v_zero, Policy m)
  end.

(** The same search; a copy of [it->first], or [nullptr] at [end()]. *)
Definition best_action (p : policy) (s_t : state) : option action * policy :=
  let '(am, m) := subscript ∅ (policies p) (s_trait s_t) in
  match max_element by_second (iterate am) with
  | Some it => (Some (Action it.1), Policy m)
  | None => (None, Policy m)
  end.

(** What the table stores for a pair, without touching it. *)
Definition stored (p : policy) (s_t : state) (a_t : action) : option value_type :=
  policies p !! s_trait s_t ≫= λ am, am !! a_trait a_t.
End model.

Arguments state : clear implicits.
Arguments action : clear implicits.
Arguments link : clear implicits.
Arguments policy : clear implicits.
Arguments policy _ _ _ {_ _ _ _}.

(** The default [markov_chain], a deque of links, and the [triplet] of the
    algorithms, [std::tuple<state_class, action_class, value_type>]: type
    aliases. *)
Abbreviation markov_chain state_trait action_trait value_type :=
  (list (link state_trait action_trait value_type)).
Abbreviation triplet state_trait action_trait value_type :=
  (state state_trait value_type * action action_trait * value_type)%type.

(** ** Ordering and hashing of the wrappers *)

(** What the wrappers ask of a trait besides [==]: its [operator<] and its
    [std::hash], whose values are [std::size_t]. *)
Class TraitOrder (T : Type) : Type := { trait_lt : T → T → bool }.
Class TraitHash (T : Type) : Type := { std_hash : T → Z }.

(** An [operator<] that is a strict order: irreflexive and transitive. *)
Definition strict_order {T : Type} (lt : T → T → bool) : Prop :=
  (∀ t, lt t t = false) ∧
  (∀ t u v, lt t u = true → lt u v = true → lt t v = true).

(** [operator<] and [std::hash] of the numbers that name the sample traits;
    the hash of an integer is taken to be the integer. *)
#[global] Instance nat_order : TraitOrder nat := {| trait_lt := Nat.ltb |}.
#[global] Instance nat_hash : TraitHash nat := {| std_hash := Z.of_nat |}.

(** [hash_combine]:
    [seed ^= hasher(v) + 0x9e3779b9 + (seed << 6) + (seed >> 2)], every
    operand a [std::size_t]; the seed after. *)
Definition hash_combine `{TraitHash T} (seed : Z) (v : T) : Z :=
  Z.lxor seed
    (size_wrap (size_wrap (size_wrap (std_hash v + 0x9e3779b9)
                           + size_wrap (Z.shiftl seed 6))
                + Z.shiftr seed 2)).

Section identity.
Context {state_trait action_trait value_type : Type}.
Context `{!TraitOrder state_trait} `{!TraitOrder action_trait}.
Context `{!TraitHash state_trait} `{!TraitHash action_trait}.

#[local] Abbreviation state := (state state_trait value_type).
#[local] Abbreviation action := (action action_trait).
#[local] Abbreviation link := (link state_trait action_trait value_type).

(** [state::operator<] and [action::operator<]: the traits decide. *)
Definition state_ltb (x y : state) : bool := trait_lt (s_trait x) (s_trait y).
Definition action_ltb (x y : action) : bool := trait_lt (a_trait x) (a_trait y).

(** [link::operator<]: the action is below and the state is below. *)
Definition link_ltb (x y : link) : bool :=
  action_ltb (l_action x) (l_action y) && state_ltb (l_state x) (l_state y).

End identity.

(** ** Deterministic Q-learning *)

Module Learning.
Section algorithm.
Context {state_trait action_trait value_type : Type}.
Context `{Countable state_trait} `{Countable action_trait}.
Context `{!ValueType value_type}.
Context `{!Iteration action_trait value_type}.

#[local] Abbreviation state := (state state_trait value_type).
#[local] Abbreviation action := (action action_trait).
#[local] Abbreviation markov_chain := (markov_chain state_trait action_trait value_type).
#[local] Abbreviation policy := (policy state_trait action_trait value_type).
#[local] Abbreviation triplet := (triplet state_trait action_trait value_type).

(** [struct q_learning]: the learning rate and the discount rate. *)
Record q_learning : Type := { alpha : value_type; gamma : value_type }.

(** [q_learning::q_value]: the triplet to write and the table the reads
    leave behind.  [index] is an [unsigned int]; in [episode.size() - 1]
    and in the comparison it is a [std::size_t]. *)
Definition q_value (ql : q_learning) (episode : markov_chain) (index : Z)
    (policy_map : policy) : outcome (triplet * policy) :=
  step ← deque_at episode index;
  if index <? size_wrap (deque_size episode - 1) then
    let '(q, policy_map) := value policy_map (l_state step) (l_action step) in
    next ← deque_at episode (uint_wrap (index + 1));
    let '(q_next, policy_map) := best_value policy_map (l_state next) in
    let r := s_reward (l_state step) in
    Done ((l_state step, l_action step,
           v_add q (v_mul (alpha ql)
                          (v_sub (v_add r (v_mul (gamma ql) q_next)) q))),
          policy_map)
  else
    Done ((l_state step, l_action step, s_reward (l_state step)), policy_map).

(** The body of the loop of [q_learning::operator()]. *)
Definition update_step (ql : q_learning) (episode : markov_chain)
    (i : Z) (policy_map : policy) : outcome policy :=
  '(t, policy_map) ← q_value ql episode i policy_map;
  Done (update policy_map t.1.1 t.1.2 t.2).

(** [q_learning::operator()]. *)
Definition operator_call (fuel : nat) (ql : q_learning)
    (episode : markov_chain) (policy_map : policy) : outcome policy :=
  for_loop fuel (deque_size episode) (update_step ql episode) 0 policy_map.
End algorithm.

Arguments q_learning : clear implicits.
End Learning.

(** ** Probabilistic Q-learning *)

Module Probabilistic.

(** [frequency], [transition] and [observation], type aliases: how often
    [s_t+1] was seen after [a_t] in [s_t]; the counts are [std::size_t]. *)
Abbreviation frequency state_trait := (gmap state_trait Z).
Abbreviation transition state_trait action_trait :=
  (gmap action_trait (frequency state_trait)).
Abbreviation observation state_trait action_trait :=
  (gmap state_trait (transition state_trait action_trait)).

Section algorithm.
Context {state_trait action_trait value_type : Type}.
Context `{Countable state_trait} `{Countable action_trait}.
Context `{!ValueType value_type}.
Context `{!Iteration action_trait value_type}.

#[local] Abbreviation state := (state state_trait value_type).
#[local] Abbreviation action := (action action_trait).
#[local] Abbreviation markov_chain := (markov_chain state_trait action_trait value_type).
#[local] Abbreviation policy := (policy state_trait action_trait value_type).
#[local] Abbreviation triplet := (triplet state_trait action_trait value_type).

#[local] Abbreviation memory_type := (observation state_trait action_trait).

(** [struct q_probabilistic]: the discount rate and [__memory__]. *)
Record q_probabilistic : Type :=
  QProbabilistic { gamma : value_type; memory : memory_type }.

(** [__memory__[s][a][n]] read: the count and the memory after. *)
Definition memory_count (mem : memory_type) (s : state_trait)
    (a : action_trait) (n : state_trait) : Z * memory_type :=
  let '(tr, mem) := subscript (∅ : transition state_trait action_trait) mem s in
  let '(fr, tr) := subscript (∅ : frequency state_trait) tr a in
  let '(c, fr) := subscript 0 fr n in
  (c, <[s := <[a := fr]> tr]> mem).

(** [__memory__[s][a].size()]: the number of distinct successors. *)
Definition memory_size (mem : memory_type) (s : state_trait)
    (a : action_trait) : Z * memory_type :=
  let '(tr, mem) := subscript (∅ : transition state_trait action_trait) mem s in
  let '(fr, tr) := subscript (∅ : frequency state_trait) tr a in
  (Z.of_nat (size fr), <[s := tr]> mem).

(** [__memory__[s][a][n]++]. *)
Definition memory_increment (mem : memory_type) (s : state_trait)
    (a : action_trait) (n : state_trait) : memory_type :=
  let '(tr, mem) := subscript (∅ : transition state_trait action_trait) mem s in
  let '(fr, tr) := subscript (∅ : frequency state_trait) tr a in
  let '(c, fr) := subscript 0 fr n in
  <[s := <[a := <[n := size_wrap (c + 1)]> fr]> tr]> mem.

(** The operands of the quotient that defines [prob].  C++ leaves the order
    of the two reads open: [numerator_first] picks it. *)
Definition quotient_operands (numerator_first : bool) (mem : memory_type)
    (s : state_trait) (a : action_trait) (n : state_trait)
    : Z * Z * memory_type :=
  if numerator_first then
    let '(num, mem) := memory_count mem s a n in
    let '(den, mem) := memory_size mem s a in
    (num, den, mem)
  else
    let '(den, mem) := memory_size mem s a in
    let '(num, mem) := memory_count mem s a n in
    (num, den, mem).

(** [q_probabilistic::q_value].  Both operands of [/] are [std::size_t]:
    the quotient is the integer one, converted to [value_type] after. *)
Definition q_value (numerator_first : bool) (qp : q_probabilistic)
    (episode : markov_chain) (index : Z) (policy_map : policy)
    : outcome (triplet * policy * q_probabilistic) :=
  step ← deque_at episode index;
  if index <? size_wrap (deque_size episode - 1) then
    let '(q, policy_map) := value policy_map (l_state step) (l_action step) in
    next ← deque_at episode (uint_wrap (index + 1));
    let '(q_next, policy_map) := best_value policy_map (l_state next) in
    let r := s_reward (l_state step) in
    let '(num, den, mem) :=
      quotient_operands numerator_first (memory qp)
        (s_trait (l_state step)) (a_trait (l_action step))
        (s_trait (l_state next)) in
    if den =? 0 then Undefined DivisionByZero
    else
      let prob := v_of_size_t (num / den) in
      let r_expected := v_mul prob r in
      Done ((l_state step, l_action step,
             v_add r_expected (v_mul (gamma qp) (v_mul q_next prob))),
            policy_map, QProbabilistic (gamma qp) mem)
  else
    Done ((l_state step, l_action step, s_reward (l_state step)),
          policy_map, qp).

(** The body of the first loop of [q_probabilistic::operator()]. *)
Definition account_step (episode : markov_chain) (i : Z)
    (mem : memory_type) : outcome memory_type :=
  if i =? size_wrap (deque_size episode - 1) then Done mem
  else
    this ← deque_at episode i;
    next ← deque_at episode (uint_wrap (i + 1));
    Done (memory_increment mem (s_trait (l_state this))
            (a_trait (l_action this)) (s_trait (l_state next))).

(** The body of its second loop. *)
Definition update_step (numerator_first : bool) (episode : markov_chain)
    (i : Z) (st : policy * q_probabilistic) : outcome (policy * q_probabilistic) :=
  '(t, policy_map, qp) ← q_value numerator_first st.2 episode i st.1;
  Done (update policy_map t.1.1 t.1.2 t.2, qp).

(** The two passes of [q_probabilistic::operator()]. *)
Definition accounting_pass (fuel : nat) (episode : markov_chain)
    (qp : q_probabilistic) : outcome q_probabilistic :=
  mem ← for_loop fuel (deque_size episode) (account_step episode) 0 (memory qp);
  Done (QProbabilistic (gamma qp) mem).

Definition update_pass (numerator_first : bool) (fuel : nat)
    (episode : markov_chain) (st : policy * q_probabilistic)
    : outcome (policy * q_probabilistic) :=
  for_loop fuel (deque_size episode) (update_step numerator_first episode) 0 st.

(** [q_probabilistic::operator()]: the table and the instance after. *)
Definition operator_call (numerator_first : bool) (fuel : nat)
    (qp : q_probabilistic) (episode : markov_chain) (policy_map : policy)
    : outcome (policy * q_probabilistic) :=
  qp ← accounting_pass fuel episode qp;
  update_pass numerator_first fuel episode (policy_map, qp).

(** What the memory holds, read without touching it: the transitions of a
    state, the successors recorded for a pair, the entry of a transition,
    its count (zero when there is none) and the number of distinct
    successors of a pair. *)
Definition transitions_of (mem : memory_type) (s : state_trait)
    : transition state_trait action_trait :=
  default ∅ (mem !! s).

Definition frequency_of (mem : memory_type) (s : state_trait)
    (a : action_trait) : frequency state_trait :=
  default ∅ (transitions_of mem s !! a).

Definition entry_of (mem : memory_type) (s : state_trait)
    (a : action_trait) (n : state_trait) : option Z :=
  frequency_of mem s a !! n.

Definition count_of (mem : memory_type) (s : state_trait)
    (a : action_trait) (n : state_trait) : Z :=
  default 0 (entry_of mem s a n).

Definition successors_of (mem : memory_type) (s : state_trait)
    (a : action_trait) : Z :=
  Z.of_nat (size (frequency_of mem s a)).

(** The memory with the pair [(s, a)] present, and with a count written for
    a transition: what the subscripts of the reads and of [++] leave. *)
Definition with_pair (mem : memory_type) (s : state_trait)
    (a : action_trait) : memory_type :=
  <[s := <[a := frequency_of mem s a]> (transitions_of mem s)]> mem.

Definition with_count (mem : memory_type) (s : state_trait)
    (a : action_trait) (n : state_trait) (c : Z) : memory_type :=
  <[s := <[a := <[n := c]> (frequency_of mem s a)]> (transitions_of mem s)]> mem.

(** The counts are [std::size_t] values. *)
Definition counts_in_range (mem : memory_type) : Prop :=
  ∀ s a n, 0 ≤ count_of mem s a n < 2 ^ 64.

(** The transition an episode makes at index [i], by the traits that key the
    memory; the last link makes none. *)
Definition transition_at (episode : markov_chain) (i : nat)
    : option (state_trait * action_trait * state_trait) :=
  this ← episode !! i;
  next ← episode !! S i;
  Some (s_trait (l_state this), a_trait (l_action this), s_trait (l_state next)).

(** How many of the first [j] indices of an episode make a given transition,
    and how many of all its indices do. *)
Definition occurrences_before (episode : markov_chain) (j : nat)
    (t : state_trait * action_trait * state_trait) : Z :=
  Z.of_nat (length (filter (λ i, transition_at episode i = Some t) (seq 0 j))).

Definition occurrences (episode : markov_chain)
    (t : state_trait * action_trait * state_trait) : Z :=
  occurrences_before episode (length episode) t.

(** The update pass stopped on reaching index [j]: the table and the
    instance with which [q_value] is called at [j]. *)
Definition update_pass_until (numerator_first : bool) (fuel : nat)
    (episode : markov_chain) (j : Z) (st : policy * q_probabilistic)
    : outcome (policy * q_probabilistic) :=
  for_loop fuel j (update_step numerator_first episode) 0 st.

(** The same episode fed [times] times to the same instance. *)
Fixpoint feed (numerator_first : bool) (fuel : nat) (episode : markov_chain)
    (times : nat) (st : policy * q_probabilistic)
    : outcome (policy * q_probabilistic) :=
  match times with
  | O => Done st
  | S times' =>
      st' ← operator_call numerator_first fuel st.2 episode st.1;
      feed numerator_first fuel episode times' st'
  end.
End algorithm.

Arguments q_probabilistic : clear implicits.
Arguments q_probabilistic _ _ _ {_ _ _ _}.
End Probabilistic.

(** ** What the specification says of [prob] *)

(** The probabilistic update in the specification's words, to compare with
    [Probabilistic.q_value] on [double]: [prob] as the quotient, taken in
    [value_type], of the count by the number of distinct successors, and the
    value written with it. *)
Definition specified_prob (count successors : Z) : float :=
  PrimFloat.div (v_of_size_t count) (v_of_size_t successors).

Definition specified_value (prob r gamma q_next : float) : float :=
  v_add (v_mul prob r) (v_mul gamma (v_mul q_next prob)).

(** ** Concrete inputs *)

(** States and actions named by numbers, values in [double]. *)
Module Sample.
Abbreviation state := (state nat float).
Abbreviation action := (action nat).
Abbreviation link := (link nat nat float).
Abbreviation policy := (policy nat nat float).

(** A freshly constructed table, and a fresh probabilistic instance. *)
Definition fresh : policy := Policy ∅.
Definition fresh_probabilistic : Probabilistic.q_probabilistic nat nat float :=
  Probabilistic.QProbabilistic 0.9%float ∅.

(** [alpha = 0.5], [gamma = 0.9]. *)
Definition half_rate : Learning.q_learning float :=
  {| Learning.alpha := 0.5%float; Learning.gamma := 0.9%float |}.

(** The two-step episode: [s0] with no reward, then the terminal [s1] with
    reward [1.0]. *)
Definition s0 : state := State 0%float 0%nat.
Definition s1 : state := State 1%float 1%nat.
Definition a0 : action := Action 0%nat.
Definition a1 : action := Action 1%nat.
Definition two_steps : list link := [Link s0 a0; Link s1 a1].

(** An episode that makes the transition from [s0] by [a0] to [s1] twice. *)
Definition there_and_back : list link :=
  [Link s0 a0; Link s1 a1; Link s0 a0; Link s1 a1].

(** An episode in which the same action in the rewarded state [home] leads
    once to [west] and once to [east]. *)
Definition home : state := State 1%float 0%nat.
Definition west : state := State 0%float 1%nat.
Definition east : state := State 0%float 2%nat.
Definition go : action := Action 0%nat.
Definition branching : list link :=
  [Link home go; Link west go; Link home go; Link east go].

(** An instance with the memory [branching] leaves: [home] by [go] has led
    once to [west] and once to [east], [west] by [go] once to [home]. *)
Definition branching_memory : Probabilistic.q_probabilistic nat nat float :=
  Probabilistic.QProbabilistic 0.9%float
    {[ 0%nat := {[ 0%nat := {[ 1%nat := 1; 2%nat := 1 ]} ]};
       1%nat := {[ 0%nat := {[ 0%nat := 1 ]} ]} ]}.

(** A table holding [3.0], [7.5] and [7.5] for three actions of [s0]. *)
Definition tied : policy :=
  update (update (update fresh s0 (Action 1%nat) 3%float)
            s0 (Action 2%nat) 7.5%float)
    s0 (Action 3%nat) 7.5%float.
End Sample.

(** * Properties *)

(** ** Subscripts and the search for the largest entry *)

Section containers.
Context `{Countable K} {T : Type}.
Implicit Types (m : gmap K T) (k : K) (dflt : T).

Lemma subscript_eq dflt m k :
  subscript dflt m k = (default dflt (m !! k), <[k := default dflt (m !! k)]> m).
Proof.
  unfold subscript. destruct (m !! k) as [x|] eqn:E; simpl; [|done].
  by rewrite insert_id.
Qed.
End containers.

Section largest.
Context {T : Type} (comp : T → T → bool).

Lemma max_element_from_elem x l : max_element_from comp x l ∈ x :: l.
Proof.
  revert x. induction l as [|z l IH]; intros x; simpl; [left|].
  pose proof (IH (if comp x z then z else x)) as E.
  apply elem_of_cons in E as [E|E].
  - rewrite E. destruct (comp x z); [right|]; left.
  - by do 2 right.
Qed.

Lemma strict_weak_irrefl u a : strict_weak_on comp u → a ∈ u → comp a a = false.
Proof.
  intros Hu Ha. destruct (comp a a) eqn:E; [|done].
  destruct (Hu a a a Ha Ha Ha E) as [? _]. congruence.
Qed.

Lemma strict_weak_not_below_trans u a b c :
  strict_weak_on comp u → a ∈ u → b ∈ u → c ∈ u →
  comp a b = false → comp b c = false → comp a c = false.
Proof.
  intros Hu Ha Hb Hc Hab Hbc. destruct (comp a c) eqn:E; [|done].
  destruct (Hu a c b Ha Hc Hb E) as [_ [?|?]]; congruence.
Qed.

Lemma max_element_from_upper u x l :
  strict_weak_on comp u → x ∈ u → (∀ y, y ∈ l → y ∈ u) →
  ∀ y, y ∈ x :: l → comp (max_element_from comp x l) y = false.
Proof.
  intros Hu. revert x. induction l as [|z l IH]; intros x Hx Hl y Hy.
  - apply list_elem_of_singleton in Hy as ->. by eapply strict_weak_irrefl.
  - simpl.
    assert (z ∈ u) as Hz by (apply Hl; left).
    assert (∀ y, y ∈ l → y ∈ u) as Hl' by (intros; apply Hl; by right).
    set (w := if comp x z then z else x).
    assert (w ∈ u) as Hw by (unfold w; by destruct (comp x z)).
    assert (max_element_from comp w l ∈ u) as Hr.
    { pose proof (max_element_from_elem w l) as E.
      apply elem_of_cons in E as [->|?]; auto. }
    pose proof (IH w Hw Hl') as Hup.
    assert (comp w x = false ∧ comp w z = false) as [Hwx Hwz].
    { unfold w. destruct (comp x z) eqn:E.
      - split; [by destruct (Hu x z z Hx Hz Hz E)|by eapply strict_weak_irrefl].
      - split; [by eapply strict_weak_irrefl|done]. }
    assert (comp (max_element_from comp w l) w = false) as Hrw
      by (apply Hup; left).
    apply elem_of_cons in Hy as [->|[->|Hy]%elem_of_cons].
    + by eapply (strict_weak_not_below_trans u _ w).
    + by eapply (strict_weak_not_below_trans u _ w).
    + apply Hup. by right.
Qed.

Lemma strict_weak_check_sound u :
  strict_weak_check comp u = true → strict_weak_on comp u.
Proof.
  unfold strict_weak_check. rewrite forallb_forall.
  intros Hu a b c Ha%list_elem_of_In Hb%list_elem_of_In Hc%list_elem_of_In Hab.
  specialize (Hu a Ha). rewrite forallb_forall in Hu.
  specialize (Hu b Hb). rewrite forallb_forall in Hu.
  specialize (Hu c Hc). rewrite Hab in Hu. simpl in Hu.
  apply andb_true_iff in Hu as [Hba Hc']. split.
  - by destruct (comp b a).
  - by apply orb_true_iff.
Qed.

Lemma max_element_Some u l :
  strict_weak_on comp u → (∀ y, y ∈ l → y ∈ u) → l ≠ [] →
  ∃ it, max_element comp l = Some it ∧ it ∈ l ∧ ∀ y, y ∈ l → comp it y = false.
Proof.
  intros Hu Hl Hne. destruct l as [|x l]; [done|]. simpl.
  eexists; split; [done|]. split; [apply max_element_from_elem|].
  apply (max_element_from_upper u); [done|apply Hl; left|].
  intros; apply Hl; by right.
Qed.
End largest.

(** ** The policy table *)

Section policy_facts.
Context {state_trait action_trait value_type : Type}.
Context `{Countable state_trait} `{Countable action_trait}.
Context `{!ValueType value_type}.
Context `{!Iteration action_trait value_type}.

#[local] Abbreviation state := (state state_trait value_type).
#[local] Abbreviation action := (action action_trait).
#[local] Abbreviation policy := (policy state_trait action_trait value_type).
#[local] Abbreviation action_map := (action_map action_trait value_type).

Implicit Types (p : policy) (s : state) (a : action) (q : value_type).

Lemma iterate_empty : iterate (∅ : action_map) = [].
Proof.
  apply Permutation_nil_r. rewrite iterate_entries. by rewrite map_to_list_empty.
Qed.

Lemma iterate_elem (am : action_map) k v : (k, v) ∈ iterate am ↔ am !! k = Some v.
Proof. rewrite iterate_entries. apply elem_of_map_to_list. Qed.

Lemma iterate_nonempty (am : action_map) : am ≠ ∅ → iterate am ≠ [].
Proof.
  intros Hne E. apply Hne, map_to_list_empty_iff, Permutation_nil_r.
  by rewrite <- iterate_entries, E.
Qed.

Lemma update_eq p s a q :
  update p s a q =
  Policy (<[s_trait s := <[a_trait a := q]> (recorded p s)]> (policies p)).
Proof.
  unfold update, recorded. rewrite !subscript_eq.
  by rewrite insert_insert_eq, insert_insert_eq.
Qed.

Lemma value_eq p s a :
  value p s a =
  (default v_zero (stored p s a),
   Policy (<[s_trait s :=
               <[a_trait a := default v_zero (stored p s a)]> (recorded p s)]>
             (policies p))).
Proof.
  unfold value, stored, recorded. rewrite !subscript_eq.
  rewrite insert_insert_eq. by destruct (policies p !! s_trait s).
Qed.

Lemma best_value_eq p s :
  best_value p s =
  (match max_element by_second (iterate (recorded p s)) with
   | Some it => it.2
   | None => v_zero
   end,
   Policy (<[s_trait s := recorded p s]> (policies p))).
Proof.
  unfold best_value, recorded. rewrite subscript_eq.
  by destruct (max_element _ _).
Qed.

Lemma best_action_eq p s :
  best_action p s =
  (match max_element by_second (iterate (recorded p s)) with
   | Some it => Some (Action it.1)
   | None => None
   end,
   Policy (<[s_trait s := recorded p s]> (policies p))).
Proof.
  unfold best_action, recorded. rewrite subscript_eq.
  by destruct (max_element _ _).
Qed.

Lemma stored_update p s a q s' a' :
  stored (update p s a q) s' a' =
  if link_eqb (Link s' a') (Link s a) then Some q else stored p s' a'.
Proof.
  rewrite update_eq. unfold stored, recorded, link_eqb, action_eqb, state_eqb.
  simpl. destruct (decide (s_trait s' = s_trait s)) as [->|Hs].
  - rewrite lookup_insert_eq, (bool_decide_eq_true_2 _ eq_refl), andb_true_r. simpl.
    destruct (decide (a_trait a' = a_trait a)) as [->|Ha].
    + by rewrite lookup_insert_eq, (bool_decide_eq_true_2 _ eq_refl).
    + rewrite lookup_insert_ne, (bool_decide_eq_false_2 _ Ha) by done.
      by destruct (policies p !! s_trait s).
  - rewrite lookup_insert_ne, (bool_decide_eq_false_2 _ Hs), andb_false_r by done.
    done.
Qed.

Lemma stored_update_same p s a q : stored (update p s a q) s a = Some q.
Proof.
  rewrite stored_update. unfold link_eqb, action_eqb, state_eqb. simpl.
  by rewrite !(bool_decide_eq_true_2 _ eq_refl).
Qed.

Lemma by_second_strict_weak (am : action_map) :
  strict_weak_check v_lt (map_to_list am).*2 = true →
  strict_weak_on by_second (iterate am).
Proof.
  intros Hv%strict_weak_check_sound a b c Ha Hb Hc. unfold by_second.
  apply Hv; apply list_elem_of_fmap; eexists; (split; [done|]);
    by rewrite <- iterate_entries.
Qed.

Lemma largest_recorded (am : action_map) :
  am ≠ ∅ →
  strict_weak_check v_lt (map_to_list am).*2 = true →
  ∃ k v, max_element by_second (iterate am) = Some (k, v) ∧
         am !! k = Some v ∧
         ∀ k' v', am !! k' = Some v' → v_lt v v' = false.
Proof.
  intros Hne Hv.
  destruct (max_element_Some by_second (iterate am) (iterate am))
    as ([k v] & Hmax & Hin & Hup);
    [by apply by_second_strict_weak|done|by apply iterate_nonempty|].
  exists k, v. split; [done|]. split; [by apply iterate_elem|].
  intros k' v' Hk'. by apply (Hup (k', v')), iterate_elem.
Qed.

(** A pair the table stores nothing for reads as zero; a state with no
    action on record has best value zero and no best action. *)
Lemma unrecorded_reads_zero p s a :
  (stored p s a = None → (value p s a).1 = v_zero) ∧
  (recorded p s = ∅ →
   (best_value p s).1 = v_zero ∧ (best_action p s).1 = None).
Proof.
  split.
  - intros Hs. by rewrite value_eq, Hs.
  - intros Hr. rewrite best_value_eq, best_action_eq, Hr.
    by rewrite iterate_empty.
Qed.

(** C6 (default zero): on a freshly constructed table, [value] returns zero
    for any pair, [best_value] returns zero for any state and [best_action]
    returns no action. *)
Theorem fresh_table_reads_zero s a :
  (value (Policy ∅) s a).1 = v_zero ∧
  (best_value (Policy ∅) s).1 = v_zero ∧
  (best_action (Policy ∅) s).1 = None.
Proof.
  destruct (unrecorded_reads_zero (Policy ∅) s a) as [Hv Hb].
  split; [by apply Hv|]. by apply Hb.
Qed.

(** C9 (frame of [update]): a call [update(s, a, v)] leaves what the table
    stores for every pair other than [(s, a)] as it was, and writes [v] for
    [(s, a)]. *)
Theorem update_frame p s a q s' a' :
  link_eqb (Link s' a') (Link s a) = false →
  stored (update p s a q) s' a' = stored p s' a' ∧
  stored (update p s a q) s a = Some q.
Proof.
  intros Hne. split; [|apply stored_update_same].
  by rewrite stored_update, Hne.
Qed.

(** C10 (reads that insert): on a state absent from the table, [best_value]
    returns zero and [best_action] returns no action, and each leaves the
    state in the table with an empty action map: the key set grows by that
    state. *)
Theorem best_reads_insert_state p s :
  policies p !! s_trait s = None →
  best_value p s = (v_zero, Policy (<[s_trait s := ∅]> (policies p))) ∧
  best_action p s = (None, Policy (<[s_trait s := ∅]> (policies p))) ∧
  (s_trait s ∉ dom (policies p)) ∧
  dom (policies (best_value p s).2) = {[s_trait s]} ∪ dom (policies p) ∧
  dom (policies (best_action p s).2) = {[s_trait s]} ∪ dom (policies p).
Proof.
  intros Habs. rewrite best_value_eq, best_action_eq. unfold recorded.
  rewrite Habs. simpl. rewrite iterate_empty. simpl.
  split; [done|]. split; [done|]. split; [by apply not_elem_of_dom|].
  split; apply dom_insert_L.
Qed.

(** C7 (best value with ties): where a state has actions on record and [<]
    orders their values, [best_value] returns a stored value that no stored
    value exceeds, and [best_action] returns an action storing that value. *)
Theorem best_value_is_maximum p s :
  recorded p s ≠ ∅ →
  strict_weak_check v_lt (map_to_list (recorded p s)).*2 = true →
  (∀ k v, recorded p s !! k = Some v → v_lt (best_value p s).1 v = false) ∧
  ∃ k_best, (best_action p s).1 = Some (Action k_best) ∧
            recorded p s !! k_best = Some (best_value p s).1.
Proof.
  intros Hne Hv. rewrite best_value_eq, best_action_eq.
  destruct (largest_recorded _ Hne Hv) as (k & v & -> & Hk & Hup). simpl.
  split; [done|]. by exists k.
Qed.
End policy_facts.

(** ** Loops and indexing *)

Section loops.
Context {St : Type}.
Implicit Types (body : Z → St → outcome St) (st : St).

(** Total correctness of a counted loop below [2 ^ 32] iterations: an
    invariant that every iteration re-establishes holds when it ends, and
    fuel above the number of iterations left is enough to get there. *)
Lemma for_loop_invariant (P : Z → St → Prop) body n fuel i st :
  0 ≤ i ≤ n → n < 2 ^ 32 → (Z.to_nat (n - i) < fuel)%nat →
  P i st →
  (∀ j st, i ≤ j < n → P j st → ∃ st', body j st = Done st' ∧ P (j + 1) st') →
  ∃ st', for_loop fuel n body i st = Done st' ∧ P n st'.
Proof.
  revert i st. induction fuel as [|fuel IH]; intros i st Hi Hn Hfuel HP Hbody.
  { lia. }
  simpl. destruct (Z.ltb_spec i n) as [Hlt|Hge].
  - destruct (Hbody i st ltac:(lia) HP) as (st' & -> & HP'). simpl.
    assert (uint_wrap (i + 1) = i + 1) as ->
      by (unfold uint_wrap; apply Z.mod_small; lia).
    apply IH; [lia|done|lia|done|].
    intros j st0 Hj. apply Hbody. lia.
  - assert (i = n) as -> by lia. by exists st.
Qed.
End loops.

Section indexing.
Context {T : Type}.
Implicit Types (d : list T).

Lemma deque_at_Some d j x :
  d !! Z.to_nat j = Some x → deque_at d j = Done x.
Proof. unfold deque_at. by intros ->. Qed.

Lemma deque_at_in_range d j :
  0 ≤ j < deque_size d → ∃ x, d !! Z.to_nat j = Some x ∧ deque_at d j = Done x.
Proof.
  unfold deque_size. intros Hj.
  destruct (lookup_lt_is_Some_2 d (Z.to_nat j)) as [x Hx]; [lia|].
  exists x. split; [done|]. by apply deque_at_Some.
Qed.

Lemma last_index_small d :
  0 < deque_size d < 2 ^ 32 → size_wrap (deque_size d - 1) = deque_size d - 1.
Proof. intros Hd. unfold size_wrap. apply Z.mod_small. lia. Qed.

Lemma next_index_small d j :
  0 ≤ j < deque_size d - 1 → deque_size d < 2 ^ 32 → uint_wrap (j + 1) = j + 1.
Proof. intros Hj Hd. unfold uint_wrap. apply Z.mod_small. lia. Qed.

Lemma last_lookup d x :
  last d = Some x → d !! Z.to_nat (deque_size d - 1) = Some x.
Proof.
  unfold deque_size. rewrite last_lookup. intros <-. f_equal. lia.
Qed.
End indexing.

(** ** Deterministic Q-learning *)

Section learning_facts.
Context {state_trait action_trait value_type : Type}.
Context `{Countable state_trait} `{Countable action_trait}.
Context `{!ValueType value_type}.
Context `{!Iteration action_trait value_type}.

#[local] Abbreviation markov_chain := (markov_chain state_trait action_trait value_type).
#[local] Abbreviation policy := (policy state_trait action_trait value_type).
#[local] Abbreviation link := (link state_trait action_trait value_type).

Implicit Types (ql : Learning.q_learning value_type) (e : markov_chain)
  (p : policy) (step next : link).

Lemma learning_q_value_last ql e p step :
  0 < deque_size e < 2 ^ 32 →
  e !! Z.to_nat (deque_size e - 1) = Some step →
  Learning.q_value ql e (deque_size e - 1) p =
  Done ((l_state step, l_action step, s_reward (l_state step)), p).
Proof.
  intros Hn Hstep. unfold Learning.q_value.
  rewrite (deque_at_Some _ _ _ Hstep). simpl.
  rewrite last_index_small by done. by rewrite Z.ltb_irrefl.
Qed.

Lemma learning_q_value_inner ql e p j step next :
  0 ≤ j < deque_size e - 1 → deque_size e < 2 ^ 32 →
  e !! Z.to_nat j = Some step → e !! Z.to_nat (j + 1) = Some next →
  Learning.q_value ql e j p =
  let vr := value p (l_state step) (l_action step) in
  let br := best_value vr.2 (l_state next) in
  Done ((l_state step, l_action step,
         v_add vr.1
           (v_mul (Learning.alpha ql)
              (v_sub (v_add (s_reward (l_state step))
                        (v_mul (Learning.gamma ql) br.1)) vr.1))),
        br.2).
Proof.
  intros Hj Hn Hstep Hnext. unfold Learning.q_value.
  rewrite (deque_at_Some _ _ _ Hstep). simpl.
  rewrite last_index_small by lia.
  destruct (Z.ltb_spec j (deque_size e - 1)); [|lia].
  destruct (value p _ _) as [q p1]. simpl.
  rewrite (next_index_small e j), (deque_at_Some _ _ _ Hnext) by done. simpl.
  by destruct (best_value p1 _) as [q_next p2].
Qed.

Lemma learning_update_step_inner ql e p j step next :
  0 ≤ j < deque_size e - 1 → deque_size e < 2 ^ 32 →
  e !! Z.to_nat j = Some step → e !! Z.to_nat (j + 1) = Some next →
  Learning.update_step ql e j p =
  let vr := value p (l_state step) (l_action step) in
  let br := best_value vr.2 (l_state next) in
  Done (update br.2 (l_state step) (l_action step)
          (v_add vr.1
             (v_mul (Learning.alpha ql)
                (v_sub (v_add (s_reward (l_state step))
                          (v_mul (Learning.gamma ql) br.1)) vr.1)))).
Proof.
  intros Hj Hn Hstep Hnext. unfold Learning.update_step.
  by rewrite (learning_q_value_inner _ _ _ _ step next).
Qed.

Lemma learning_update_step_defined ql e p j :
  0 ≤ j < deque_size e → deque_size e < 2 ^ 32 →
  ∃ p', Learning.update_step ql e j p = Done p'.
Proof.
  intros Hj Hn. unfold Learning.update_step.
  destruct (deque_at_in_range e j Hj) as (step & Hstep & _).
  destruct (decide (j = deque_size e - 1)) as [->|Hne].
  - rewrite (learning_q_value_last _ _ _ step) by (done || lia). simpl. eauto.
  - destruct (deque_at_in_range e (j + 1)) as (next & Hnext & _); [lia|].
    rewrite (learning_q_value_inner _ _ _ _ step next) by (done || lia).
    simpl. eauto.
Qed.

Lemma learning_update_step_last ql e p step :
  0 < deque_size e < 2 ^ 32 →
  e !! Z.to_nat (deque_size e - 1) = Some step →
  Learning.update_step ql e (deque_size e - 1) p =
  Done (update p (l_state step) (l_action step) (s_reward (l_state step))).
Proof.
  intros Hn Hstep. unfold Learning.update_step.
  by rewrite (learning_q_value_last _ _ _ step).
Qed.

(** The deterministic half of the terminal rule. *)
Lemma learning_terminal_rule ql e p fuel step :
  last e = Some step → deque_size e < 2 ^ 32 → (length e < fuel)%nat →
  ∃ p', Learning.operator_call fuel ql e p = Done p' ∧
        stored p' (l_state step) (l_action step) = Some (s_reward (l_state step)).
Proof.
  intros Hlast Hn Hfuel. unfold Learning.operator_call.
  assert (0 < deque_size e) as Hpos.
  { unfold deque_size. destruct e; [done|]. simpl. lia. }
  apply last_lookup in Hlast.
  destruct (for_loop_invariant (λ j p', j = deque_size e →
    stored p' (l_state step) (l_action step) = Some (s_reward (l_state step)))
    (Learning.update_step ql e) (deque_size e) fuel 0 p)
    as (p' & Hrun & Hp'); [lia|done|unfold deque_size; lia|lia| |by eauto].
  intros j p0 Hj _.
  destruct (decide (j = deque_size e - 1)) as [->|Hne].
  - rewrite (learning_update_step_last _ _ _ step) by (done || lia).
    eexists; split; [done|]. intros _. apply stored_update_same.
  - destruct (learning_update_step_defined ql e p0 j) as [p' Hp']; [lia|done|].
    exists p'. split; [done|]. lia.
Qed.

(** Called on an empty episode, [q_value] indexes out of range at once. *)
Lemma learning_q_value_empty ql p index :
  Learning.q_value ql [] index p = Undefined OutOfBounds.
Proof. done. Qed.
End learning_facts.

(** ** The observation memory *)

Section memory_facts.
Import Probabilistic.
Context `{Countable state_trait} `{Countable action_trait}.

#[local] Abbreviation memory_type := (observation state_trait action_trait).

Implicit Types (mem : memory_type) (s n : state_trait) (a : action_trait) (c : Z).

Lemma memory_count_eq mem s a n :
  memory_count mem s a n =
  (count_of mem s a n, with_count mem s a n (count_of mem s a n)).
Proof.
  unfold memory_count, with_count, count_of, entry_of, frequency_of, transitions_of.
  rewrite !subscript_eq. by rewrite !insert_insert_eq.
Qed.

Lemma memory_size_eq mem s a :
  memory_size mem s a = (successors_of mem s a, with_pair mem s a).
Proof.
  unfold memory_size, with_pair, successors_of, frequency_of, transitions_of.
  rewrite !subscript_eq. by rewrite !insert_insert_eq.
Qed.

Lemma memory_increment_eq mem s a n :
  memory_increment mem s a n =
  with_count mem s a n (size_wrap (count_of mem s a n + 1)).
Proof.
  unfold memory_increment, with_count, count_of, entry_of, frequency_of, transitions_of.
  rewrite !subscript_eq. by rewrite !insert_insert_eq.
Qed.

Lemma entry_of_with_count mem s a n c s' a' n' :
  entry_of (with_count mem s a n c) s' a' n' =
  if decide ((s, a, n) = (s', a', n')) then Some c else entry_of mem s' a' n'.
Proof.
  unfold with_count, entry_of, frequency_of, transitions_of.
  destruct (decide (s = s')) as [<-|Hs].
  - rewrite lookup_insert_eq. simpl.
    destruct (decide (a = a')) as [<-|Ha].
    + rewrite lookup_insert_eq. simpl.
      destruct (decide (n = n')) as [<-|Hn].
      * rewrite lookup_insert_eq. by rewrite decide_True.
      * rewrite lookup_insert_ne by done. rewrite decide_False; [done|congruence].
    + rewrite lookup_insert_ne by done. rewrite decide_False; [done|congruence].
  - rewrite lookup_insert_ne by done. rewrite decide_False; [done|congruence].
Qed.

Lemma count_of_with_count mem s a n c s' a' n' :
  count_of (with_count mem s a n c) s' a' n' =
  if decide ((s, a, n) = (s', a', n')) then c else count_of mem s' a' n'.
Proof.
  unfold count_of. rewrite entry_of_with_count. by case_decide.
Qed.

Lemma entry_of_frequency mem s a n c :
  entry_of mem s a n = Some c →
  ∃ tr fr, mem !! s = Some tr ∧ tr !! a = Some fr ∧ fr !! n = Some c ∧
           transitions_of mem s = tr ∧ frequency_of mem s a = fr.
Proof.
  unfold entry_of, frequency_of, transitions_of.
  destruct (mem !! s) as [tr|] eqn:Etr; simpl; [|by rewrite lookup_empty].
  destruct (tr !! a) as [fr|] eqn:Efr; simpl; [|by rewrite lookup_empty].
  intros Hc. by exists tr, fr.
Qed.

Lemma with_count_present mem s a n c :
  entry_of mem s a n = Some c → with_count mem s a n c = mem.
Proof.
  intros (tr & fr & Htr & Hfr & Hc & Etr & Efr)%entry_of_frequency.
  unfold with_count. rewrite Etr, Efr.
  by rewrite (insert_id fr), (insert_id tr), (insert_id mem).
Qed.

Lemma with_pair_present mem s a n c :
  entry_of mem s a n = Some c → with_pair mem s a = mem.
Proof.
  intros (tr & fr & Htr & Hfr & Hc & Etr & Efr)%entry_of_frequency.
  unfold with_pair. rewrite Etr, Efr.
  by rewrite (insert_id tr), (insert_id mem).
Qed.

Lemma successors_of_present mem s a n c :
  entry_of mem s a n = Some c → 0 < successors_of mem s a.
Proof.
  intros (tr & fr & Htr & Hfr & Hc & Etr & Efr)%entry_of_frequency.
  unfold successors_of. rewrite Efr.
  assert (size fr ≠ 0%nat); [|lia].
  intros ->%map_size_empty_iff. by rewrite lookup_empty in Hc.
Qed.

(** On a transition the memory has an entry for, the two reads of the
    quotient change nothing, whichever comes first. *)
Lemma quotient_operands_present numerator_first mem s a n c :
  entry_of mem s a n = Some c →
  quotient_operands numerator_first mem s a n = (c, successors_of mem s a, mem).
Proof.
  intros Hc. unfold quotient_operands.
  assert (count_of mem s a n = c) as Ec by (unfold count_of; by rewrite Hc).
  destruct numerator_first.
  - rewrite memory_count_eq, Ec, (with_count_present _ _ _ _ _ Hc).
    by rewrite memory_size_eq, (with_pair_present _ _ _ _ _ Hc).
  - rewrite memory_size_eq, (with_pair_present _ _ _ _ _ Hc).
    by rewrite memory_count_eq, Ec, (with_count_present _ _ _ _ _ Hc).
Qed.
End memory_facts.

(** ** Probabilistic Q-learning: the accounting pass *)

Section accounting_facts.
Import Probabilistic.
Context {state_trait action_trait value_type : Type}.
Context `{Countable state_trait} `{Countable action_trait}.

#[local] Abbreviation markov_chain := (markov_chain state_trait action_trait value_type).
#[local] Abbreviation memory_type := (observation state_trait action_trait).
#[local] Abbreviation triple := (state_trait * action_trait * state_trait)%type.
#[local] Abbreviation count mem t := (count_of mem t.1.1 t.1.2 t.2).
#[local] Abbreviation entry mem t := (entry_of mem t.1.1 t.1.2 t.2).

Implicit Types (e : markov_chain) (mem : memory_type) (t : triple).

Lemma transition_at_inner e j :
  0 ≤ j < deque_size e - 1 →
  ∃ this next,
    e !! Z.to_nat j = Some this ∧ e !! Z.to_nat (j + 1) = Some next ∧
    transition_at e (Z.to_nat j) =
    Some (s_trait (l_state this), a_trait (l_action this), s_trait (l_state next)).
Proof.
  intros Hj.
  destruct (deque_at_in_range e j) as (this & Hthis & _); [lia|].
  destruct (deque_at_in_range e (j + 1)) as (next & Hnext & _); [lia|].
  exists this, next. split; [done|]. split; [done|].
  unfold transition_at. rewrite Hthis. simpl.
  replace (S (Z.to_nat j)) with (Z.to_nat (j + 1)) by lia.
  by rewrite Hnext.
Qed.

Lemma transition_at_last e j :
  deque_size e - 1 ≤ j → transition_at e (Z.to_nat j) = None.
Proof.
  intros Hj. unfold transition_at.
  destruct (e !! Z.to_nat j); simpl; [|done].
  rewrite (lookup_ge_None_2 e (S (Z.to_nat j))); [done|].
  unfold deque_size in Hj. lia.
Qed.

Lemma occurrences_before_S e j t :
  occurrences_before e (S j) t =
  occurrences_before e j t + (if decide (transition_at e j = Some t) then 1 else 0).
Proof.
  unfold occurrences_before. rewrite seq_S, filter_app, length_app. simpl.
  rewrite filter_cons, filter_nil. case_decide; simpl; lia.
Qed.

Lemma occurrences_before_nonneg e j t : 0 ≤ occurrences_before e j t.
Proof. unfold occurrences_before. lia. Qed.

Lemma account_step_inner e j mem t :
  0 ≤ j < deque_size e - 1 → deque_size e < 2 ^ 32 →
  transition_at e (Z.to_nat j) = Some t →
  account_step e j mem =
  Done (with_count mem t.1.1 t.1.2 t.2 (size_wrap (count mem t + 1))).
Proof.
  intros Hj Hn Ht.
  destruct (transition_at_inner e j Hj) as (this & next & Hthis & Hnext & Ht').
  rewrite Ht' in Ht. injection Ht as <-. simpl.
  unfold account_step. rewrite last_index_small by lia.
  destruct (Z.eqb_spec j (deque_size e - 1)); [lia|].
  rewrite (deque_at_Some _ _ _ Hthis). simpl.
  rewrite (next_index_small e j), (deque_at_Some _ _ _ Hnext) by done. simpl.
  by rewrite memory_increment_eq.
Qed.

Lemma account_step_last e mem :
  0 < deque_size e < 2 ^ 32 → account_step e (deque_size e - 1) mem = Done mem.
Proof.
  intros Hn. unfold account_step. rewrite last_index_small by done.
  by rewrite Z.eqb_refl.
Qed.

Lemma size_wrap_range x : 0 ≤ size_wrap x < 2 ^ 64.
Proof. unfold size_wrap. apply Z.mod_pos_bound. lia. Qed.

Lemma size_wrap_succ x : size_wrap (size_wrap x + 1) = size_wrap (x + 1).
Proof. unfold size_wrap. by rewrite Zplus_mod_idemp_l. Qed.

Lemma size_wrap_add x y : size_wrap (size_wrap x + y) = size_wrap (x + y).
Proof. unfold size_wrap. by rewrite Zplus_mod_idemp_l. Qed.

Lemma size_wrap_small x : 0 ≤ x < 2 ^ 64 → size_wrap x = x.
Proof. unfold size_wrap. apply Z.mod_small. Qed.

(** The first loop: every transition of the episode gets an entry, and each
    count grows, modulo [2 ^ 64], by the number of times the episode makes
    its transition. *)
Lemma accounting_loop e mem fuel :
  deque_size e < 2 ^ 32 → (length e < fuel)%nat →
  ∃ mem',
    for_loop fuel (deque_size e) (account_step e) 0 mem = Done mem' ∧
    (∀ i t, transition_at e i = Some t → is_Some (entry mem' t)) ∧
    (counts_in_range mem →
     counts_in_range mem' ∧
     ∀ t, count mem' t = size_wrap (count mem t + occurrences e t)).
Proof.
  intros Hn Hfuel.
  destruct (for_loop_invariant (λ j mem',
      (∀ i t, (i < Z.to_nat j)%nat → transition_at e i = Some t →
              is_Some (entry mem' t)) ∧
      (counts_in_range mem →
       counts_in_range mem' ∧
       ∀ t, count mem' t =
            size_wrap (count mem t + occurrences_before e (Z.to_nat j) t)))
    (account_step e) (deque_size e) fuel 0 mem)
    as (mem' & Hrun & He' & Hc');
    [unfold deque_size; lia|done|unfold deque_size; lia| | |].
  - split; [intros; lia|]. intros Hrange. split; [done|].
    intros t. unfold occurrences_before. simpl.
    rewrite Z.add_0_r, size_wrap_small; [done|apply Hrange].
  - intros j mem1 Hj (He1 & Hc1).
    replace (Z.to_nat (j + 1)) with (S (Z.to_nat j)) by lia.
    destruct (decide (j = deque_size e - 1)) as [->|Hne].
    + rewrite account_step_last by lia. exists mem1. split; [done|]. split.
      * intros i t Hi Ht. destruct (decide (i = Z.to_nat (deque_size e - 1))) as [->|].
        -- rewrite transition_at_last in Ht by lia. done.
        -- apply (He1 i); [lia|done].
      * intros Hrange. destruct (Hc1 Hrange) as [Hr1 Hf1]. split; [done|].
        intros t. rewrite occurrences_before_S, transition_at_last by lia.
        rewrite decide_False by done. by rewrite Z.add_0_r.
    + destruct (transition_at_inner e j) as (this & next & _ & _ & Ht0); [lia|].
      set (t0 := (s_trait (l_state this), a_trait (l_action this),
                  s_trait (l_state next))) in *.
      rewrite (account_step_inner e j mem1 t0) by (done || lia).
      clearbody t0. destruct t0 as [[s0 a0] n0]. simpl.
      eexists; split; [done|]. split.
      * intros i [[s a] n] Hi Ht. simpl. rewrite entry_of_with_count.
        case_decide; [done|].
        destruct (decide (i = Z.to_nat j)) as [->|].
        -- congruence.
        -- apply (He1 i (s, a, n)); [lia|done].
      * intros Hrange. destruct (Hc1 Hrange) as [Hr1 Hf1]. split.
        -- intros s a n. rewrite count_of_with_count.
           case_decide; [apply size_wrap_range|apply Hr1].
        -- intros [[s a] n]. simpl.
           rewrite count_of_with_count, occurrences_before_S, Ht0.
           pose proof (Hf1 (s, a, n)) as Hc. simpl in Hc.
           destruct (decide ((s0, a0, n0) = (s, a, n))) as [E|E].
           ++ rewrite decide_True by congruence. injection E as -> -> ->.
              rewrite Hc, size_wrap_succ. f_equal. lia.
           ++ rewrite decide_False by congruence. rewrite Hc. f_equal. lia.
  - exists mem'. split; [done|]. split.
    + intros i t Ht. apply (He' i); [|done].
      unfold transition_at in Ht.
      destruct (e !! i) eqn:Ei; [|done].
      apply lookup_lt_Some in Ei. unfold deque_size. lia.
    + intros Hrange. destruct (Hc' Hrange) as [Hr' Hf']. split; [done|].
      intros t. rewrite Hf'. unfold occurrences, deque_size.
      by rewrite Nat2Z.id.
Qed.
End accounting_facts.

(** ** Probabilistic Q-learning: the update pass *)

Section probabilistic_facts.
Import Probabilistic.
Context {state_trait action_trait value_type : Type}.
Context `{Countable state_trait} `{Countable action_trait}.
Context `{!ValueType value_type}.
Context `{!Iteration action_trait value_type}.

#[local] Abbreviation markov_chain := (markov_chain state_trait action_trait value_type).
#[local] Abbreviation policy := (policy state_trait action_trait value_type).
#[local] Abbreviation link := (link state_trait action_trait value_type).
#[local] Abbreviation q_probabilistic := (q_probabilistic state_trait action_trait value_type).

Implicit Types (qp : q_probabilistic) (e : markov_chain) (p : policy)
  (step next : link) (numerator_first : bool).

(** Every transition the episode makes has an entry in the memory. *)
#[local] Abbreviation accounted e qp :=
  (∀ i t, transition_at e i = Some t →
          is_Some (entry_of (memory qp) t.1.1 t.1.2 t.2)).

Lemma probabilistic_q_value_last numerator_first qp e p step :
  0 < deque_size e < 2 ^ 32 →
  e !! Z.to_nat (deque_size e - 1) = Some step →
  q_value numerator_first qp e (deque_size e - 1) p =
  Done ((l_state step, l_action step, s_reward (l_state step)), p, qp).
Proof.
  intros Hn Hstep. unfold q_value.
  rewrite (deque_at_Some _ _ _ Hstep). simpl.
  rewrite last_index_small by done. by rewrite Z.ltb_irrefl.
Qed.

(** What [q_value] computes below the last index on an accounted
    transition: [prob] is the integer quotient of the count by the number of
    distinct successors, converted to [value_type]. *)
Lemma probabilistic_q_value_inner numerator_first qp e p j step next c :
  0 ≤ j < deque_size e - 1 → deque_size e < 2 ^ 32 →
  e !! Z.to_nat j = Some step → e !! Z.to_nat (j + 1) = Some next →
  entry_of (memory qp) (s_trait (l_state step)) (a_trait (l_action step))
    (s_trait (l_state next)) = Some c →
  q_value numerator_first qp e j p =
  let vr := value p (l_state step) (l_action step) in
  let br := best_value vr.2 (l_state next) in
  let prob :=
    v_of_size_t (c / successors_of (memory qp) (s_trait (l_state step))
                       (a_trait (l_action step))) in
  Done ((l_state step, l_action step,
         v_add (v_mul prob (s_reward (l_state step)))
               (v_mul (gamma qp) (v_mul br.1 prob))),
        br.2, qp).
Proof.
  intros Hj Hn Hstep Hnext Hc. unfold q_value.
  rewrite (deque_at_Some _ _ _ Hstep). simpl.
  rewrite last_index_small by lia.
  destruct (Z.ltb_spec j (deque_size e - 1)); [|lia].
  destruct (value p _ _) as [q p1]. simpl.
  rewrite (next_index_small e j), (deque_at_Some _ _ _ Hnext) by done. simpl.
  destruct (best_value p1 _) as [q_next p2]. simpl.
  rewrite (quotient_operands_present _ _ _ _ _ c Hc).
  pose proof (successors_of_present _ _ _ _ _ Hc) as Hpos.
  destruct (Z.eqb_spec (successors_of (memory qp) (s_trait (l_state step))
                          (a_trait (l_action step))) 0); [lia|].
  by destruct qp.
Qed.

Lemma probabilistic_update_step_last numerator_first qp e p step :
  0 < deque_size e < 2 ^ 32 →
  e !! Z.to_nat (deque_size e - 1) = Some step →
  update_step numerator_first e (deque_size e - 1) (p, qp) =
  Done (update p (l_state step) (l_action step) (s_reward (l_state step)), qp).
Proof.
  intros Hn Hstep. unfold update_step. simpl.
  by rewrite (probabilistic_q_value_last _ _ _ _ step).
Qed.

Lemma probabilistic_update_step_defined numerator_first qp e p j :
  0 ≤ j < deque_size e → deque_size e < 2 ^ 32 → accounted e qp →
  ∃ p', update_step numerator_first e j (p, qp) = Done (p', qp).
Proof.
  intros Hj Hn Hacc.
  destruct (decide (j = deque_size e - 1)) as [->|Hne].
  - destruct (deque_at_in_range e (deque_size e - 1)) as (step & Hstep & _); [lia|].
    rewrite (probabilistic_update_step_last _ _ _ _ step) by (done || lia). eauto.
  - destruct (transition_at_inner e j) as (step & next & Hstep & Hnext & Ht); [lia|].
    destruct (Hacc _ _ Ht) as [c Hc]. simpl in Hc.
    unfold update_step. simpl.
    rewrite (probabilistic_q_value_inner _ _ _ _ _ step next c) by (done || lia).
    simpl. eauto.
Qed.

(** The update pass run up to any index of an accounted episode returns,
    and leaves the instance as it was. *)
Lemma update_pass_until_defined numerator_first fuel qp e p k :
  0 ≤ k ≤ deque_size e → deque_size e < 2 ^ 32 → (length e < fuel)%nat →
  accounted e qp →
  ∃ p', update_pass_until numerator_first fuel e k (p, qp) = Done (p', qp).
Proof.
  intros Hk Hn Hfuel Hacc. unfold update_pass_until.
  destruct (for_loop_invariant (λ _ st, st.2 = qp)
    (update_step numerator_first e) k fuel 0 (p, qp))
    as ([p' qp'] & Hrun & Hqp); [lia|lia|unfold deque_size in *; lia|done| |].
  - intros j [p0 qp0] Hj Hqp0. simpl in Hqp0. subst qp0.
    destruct (probabilistic_update_step_defined numerator_first qp e p0 j)
      as [p' Hp']; [lia|done|done|]. by exists (p', qp).
  - simpl in Hqp. subst qp'. by exists p'.
Qed.

(** The probabilistic half of the terminal rule, on an accounted episode. *)
Lemma update_pass_terminal_rule numerator_first fuel qp e p step :
  last e = Some step → deque_size e < 2 ^ 32 → (length e < fuel)%nat →
  accounted e qp →
  ∃ p', update_pass numerator_first fuel e (p, qp) = Done (p', qp) ∧
        stored p' (l_state step) (l_action step) = Some (s_reward (l_state step)).
Proof.
  intros Hlast Hn Hfuel Hacc. unfold update_pass.
  assert (0 < deque_size e) as Hpos.
  { unfold deque_size. destruct e; [done|]. simpl. lia. }
  apply last_lookup in Hlast.
  destruct (for_loop_invariant (λ j st, st.2 = qp ∧ (j = deque_size e →
      stored st.1 (l_state step) (l_action step) = Some (s_reward (l_state step))))
    (update_step numerator_first e) (deque_size e) fuel 0 (p, qp))
    as ([p' qp'] & Hrun & Hqp & Hp');
    [lia|done|unfold deque_size; lia|split; [done|lia]| |].
  - intros j [p0 qp0] Hj [Hqp0 _]. simpl in Hqp0. subst qp0.
    destruct (decide (j = deque_size e - 1)) as [->|Hne].
    + rewrite (probabilistic_update_step_last _ _ _ _ step) by (done || lia).
      eexists; split; [done|]. split; [done|]. intros _. apply stored_update_same.
    + destruct (probabilistic_update_step_defined numerator_first qp e p0 j)
        as [p' Hp']; [lia|done|done|].
      exists (p', qp). split; [done|]. split; [done|]. lia.
  - simpl in *. subst qp'. exists p'. split; [done|]. by apply Hp'.
Qed.

(** One call of [operator()]: it returns, with every transition of the
    episode accounted, and each count grown by the occurrences of its
    transition. *)
Lemma operator_call_counts numerator_first fuel qp e p :
  deque_size e < 2 ^ 32 → (length e < fuel)%nat →
  ∃ p' qp',
    operator_call numerator_first fuel qp e p = Done (p', qp') ∧
    accounting_pass fuel e qp = Done qp' ∧
    update_pass numerator_first fuel e (p, qp') = Done (p', qp') ∧
    accounted e qp' ∧
    (counts_in_range (memory qp) →
     counts_in_range (memory qp') ∧
     ∀ s a n, count_of (memory qp') s a n =
              size_wrap (count_of (memory qp) s a n + occurrences e (s, a, n))).
Proof.
  intros Hn Hfuel.
  destruct (accounting_loop e (memory qp) fuel Hn Hfuel)
    as (mem' & Hrun & He' & Hc').
  set (qp' := QProbabilistic (gamma qp) mem').
  assert (accounting_pass fuel e qp = Done qp') as Hacc
    by (unfold accounting_pass; by rewrite Hrun).
  destruct (update_pass_until_defined numerator_first fuel qp' e p (deque_size e))
    as [p' Hp']; [unfold deque_size; lia|done|done|done|].
  exists p', qp'. unfold operator_call. rewrite Hacc. simpl.
  split; [done|]. split; [done|]. split; [done|]. split; [done|].
  intros Hrange. destruct (Hc' Hrange) as [Hr' Hf']. split; [done|].
  intros s a n. apply (Hf' (s, a, n)).
Qed.
End probabilistic_facts.

(** ** The two algorithms on an episode *)

Section episode_claims.
Import Probabilistic.
Context {state_trait action_trait value_type : Type}.
Context `{Countable state_trait} `{Countable action_trait}.
Context `{!ValueType value_type}.
Context `{!Iteration action_trait value_type}.

#[local] Abbreviation markov_chain := (markov_chain state_trait action_trait value_type).
#[local] Abbreviation policy := (policy state_trait action_trait value_type).
#[local] Abbreviation link := (link state_trait action_trait value_type).
#[local] Abbreviation q_probabilistic := (q_probabilistic state_trait action_trait value_type).

Implicit Types (ql : Learning.q_learning value_type) (qp : q_probabilistic)
  (e : markov_chain) (p : policy) (step next : link) (numerator_first : bool).

Lemma value_of_stored p (s : state state_trait value_type)
    (a : action action_trait) v :
  stored p s a = Some v → (value p s a).1 = v.
Proof. intros Hv. by rewrite value_eq, Hv. Qed.

(** C3, as the code has it (empty episode): either algorithm's [operator()]
    returns normally on an empty episode, with the policy table, and the
    instance of the probabilistic algorithm, exactly as they were; no link
    of the episode is read. *)
Theorem empty_episode_returns_unchanged ql qp p fuel numerator_first :
  Learning.operator_call (S fuel) ql [] p = Done p ∧
  operator_call numerator_first (S fuel) qp [] p = Done (p, qp).
Proof. split; [done|]. by destruct qp. Qed.

(** C4 (terminal rule): after either algorithm's [operator()] on a non-empty
    episode, the table's value for the pair of the last link is the reward
    of the last link's state, whatever the table held before and wherever
    else the pair occurs in the episode. *)
Theorem terminal_rule ql qp numerator_first e p fuel step :
  last e = Some step → deque_size e < 2 ^ 32 → (length e < fuel)%nat →
  (∃ p', Learning.operator_call fuel ql e p = Done p' ∧
         (value p' (l_state step) (l_action step)).1 = s_reward (l_state step)) ∧
  (∃ p' qp', operator_call numerator_first fuel qp e p = Done (p', qp') ∧
         (value p' (l_state step) (l_action step)).1 = s_reward (l_state step)).
Proof.
  intros Hlast Hn Hfuel. split.
  - destruct (learning_terminal_rule ql e p fuel step) as (p' & Hrun & Hp'); [done..|].
    exists p'. split; [done|]. by apply value_of_stored.
  - destruct (operator_call_counts numerator_first fuel qp e p)
      as (p1 & qp' & Hcall & Hacc & Hupd & He & _); [done..|].
    destruct (update_pass_terminal_rule numerator_first fuel qp' e p step)
      as (p' & Hrun & Hp'); [done..|].
    exists p', qp'. split; [|by apply value_of_stored].
    unfold operator_call. rewrite Hacc. simpl. done.
Qed.

(** C5 (no division by zero): in one call of the probabilistic algorithm,
    when the update pass reaches an index below the last, the accounting
    pass has left an entry for that index's transition, so the number of
    distinct successors [q_value] divides by is not zero, in either order of
    the two reads; the call returns. *)
Theorem denominator_nonzero numerator_first qp e p fuel j :
  0 ≤ j < deque_size e - 1 → deque_size e < 2 ^ 32 → (length e < fuel)%nat →
  ∃ qp1 p_j step next,
    accounting_pass fuel e qp = Done qp1 ∧
    update_pass_until numerator_first fuel e j (p, qp1) = Done (p_j, qp1) ∧
    e !! Z.to_nat j = Some step ∧ e !! Z.to_nat (j + 1) = Some next ∧
    is_Some (entry_of (memory qp1) (s_trait (l_state step))
               (a_trait (l_action step)) (s_trait (l_state next))) ∧
    (quotient_operands numerator_first (memory qp1) (s_trait (l_state step))
       (a_trait (l_action step)) (s_trait (l_state next))).1.2 ≠ 0 ∧
    ∃ p', operator_call numerator_first fuel qp e p = Done (p', qp1).
Proof.
  intros Hj Hn Hfuel.
  destruct (operator_call_counts numerator_first fuel qp e p)
    as (p' & qp1 & Hcall & Hacc & _ & He & _); [done..|].
  destruct (update_pass_until_defined numerator_first fuel qp1 e p j)
    as [p_j Hp_j]; [lia|done..|].
  destruct (transition_at_inner e j Hj) as (step & next & Hstep & Hnext & Ht).
  destruct (He _ _ Ht) as [c Hc]. simpl in Hc.
  exists qp1, p_j, step, next.
  split; [done|]. split; [done|]. split; [done|]. split; [done|].
  split; [by exists c|]. split; [|by exists p'].
  rewrite (quotient_operands_present _ _ _ _ _ c Hc). simpl.
  pose proof (successors_of_present _ _ _ _ _ Hc). lia.
Qed.

Lemma feed_counts numerator_first fuel e times p qp :
  deque_size e < 2 ^ 32 → (length e < fuel)%nat → counts_in_range (memory qp) →
  ∃ p' qp',
    feed numerator_first fuel e times (p, qp) = Done (p', qp') ∧
    counts_in_range (memory qp') ∧
    ∀ s a n, count_of (memory qp') s a n =
             size_wrap (count_of (memory qp) s a n +
                        Z.of_nat times * occurrences e (s, a, n)).
Proof.
  intros Hn Hfuel. revert p qp.
  induction times as [|times IH]; intros p qp Hrange.
  - exists p, qp. split; [done|]. split; [done|]. intros s a n.
    rewrite Z.mul_0_l, Z.add_0_r, size_wrap_small; [done|apply Hrange].
  - destruct (operator_call_counts numerator_first fuel qp e p)
      as (p1 & qp1 & Hcall & _ & _ & _ & Hc); [done..|].
    destruct (Hc Hrange) as [Hr1 Hf1].
    destruct (IH p1 qp1 Hr1) as (p' & qp' & Hfeed & Hr' & Hf').
    exists p', qp'. simpl. rewrite Hcall. simpl.
    split; [done|]. split; [done|]. intros s a n.
    rewrite Hf', Hf1, size_wrap_add. f_equal. lia.
Qed.

(** C8, as the code has it (accounting accumulates): feeding the same
    episode [times] times to one instance returns, and leaves each count at
    its count before plus [times] times the number of indices at which the
    episode makes that transition, modulo [2 ^ 64]; without overflow that
    is the exact count, and it is not below the count before. *)
Theorem feeding_accumulates numerator_first fuel e times p qp s a n :
  deque_size e < 2 ^ 32 → (length e < fuel)%nat → counts_in_range (memory qp) →
  ∃ p' qp',
    feed numerator_first fuel e times (p, qp) = Done (p', qp') ∧
    count_of (memory qp') s a n =
      size_wrap (count_of (memory qp) s a n +
                 Z.of_nat times * occurrences e (s, a, n)) ∧
    (count_of (memory qp) s a n + Z.of_nat times * occurrences e (s, a, n) < 2 ^ 64 →
     count_of (memory qp') s a n =
       count_of (memory qp) s a n + Z.of_nat times * occurrences e (s, a, n) ∧
     count_of (memory qp) s a n ≤ count_of (memory qp') s a n).
Proof.
  intros Hn Hfuel Hrange.
  destruct (feed_counts numerator_first fuel e times p qp)
    as (p' & qp' & Hfeed & Hr' & Hf'); [done..|].
  exists p', qp'. split; [done|]. split; [apply Hf'|].
  intros Hsmall. rewrite Hf'.
  pose proof (Hrange s a n).
  pose proof (occurrences_before_nonneg e (length e) (s, a, n)) as Hocc.
  fold (occurrences e (s, a, n)) in Hocc.
  rewrite size_wrap_small by nia. nia.
Qed.
End episode_claims.

(** ** The one-step update on [double] *)

Section one_step.
Context `{Countable state_trait} `{Countable action_trait}.
Context `{!Iteration action_trait float}.

#[local] Abbreviation policy := (policy state_trait action_trait float).

Lemma for_loop_unfold {St : Type} fuel n (body : Z → St → outcome St) i st :
  for_loop (S fuel) n body i st =
  if i <? n then st' ← body i st; for_loop fuel n body (uint_wrap (i + 1)) st'
  else Done st.
Proof. done. Qed.

(** C1, as the code has it (one-step update): with [alpha = 0.5] and
    [gamma = 0.9], on a table whose value for [(s0, a0)] is zero and whose
    best value for [s1] is [b] when index 0 is updated, the two-step episode
    leaves [1.0] for [(s1, a1)] and [0 + 0.5 * (0 + 0.9 * b - 0)] for
    [(s0, a0)]: index 0 is updated before index 1 writes the reward. *)
Theorem one_step_update_reads_before_write (p : policy)
    (t0 t1 : state_trait) (a0 a1 : action action_trait) (b : float) (fuel : nat) :
  let s0 := State 0%float t0 in
  let s1 := State 1%float t1 in
  link_eqb (Link s0 a0) (Link s1 a1) = false →
  (value p s0 a0).1 = 0%float →
  (best_value (value p s0 a0).2 s1).1 = b →
  (2 < fuel)%nat →
  ∃ p', Learning.operator_call fuel Sample.half_rate [Link s0 a0; Link s1 a1] p
        = Done p' ∧
        (value p' s1 a1).1 = 1%float ∧
        (value p' s0 a0).1 = (0 + 0.5 * (0 + 0.9 * b - 0))%float.
Proof.
  intros s0 s1 Hne Hq Hb Hfuel.
  destruct fuel as [|[|[|fuel]]]; [lia..|].
  set (e := [Link s0 a0; Link s1 a1]).
  assert (deque_size e = 2) as Hsize by done.
  unfold Learning.operator_call. rewrite Hsize.
  rewrite for_loop_unfold. change (0 <? 2) with true. cbv iota.
  rewrite (learning_update_step_inner _ e p 0 (Link s0 a0) (Link s1 a1))
    by (done || rewrite Hsize; lia).
  cbv zeta. change (l_state (Link s0 a0)) with s0.
  change (l_action (Link s0 a0)) with a0. change (l_state (Link s1 a1)) with s1.
  rewrite Hq, Hb. simpl mbind.
  eexists. split; [done|]. split.
  - apply value_of_stored, stored_update_same.
  - apply value_of_stored. rewrite stored_update. simpl in Hne. rewrite Hne.
    apply stored_update_same.
Qed.
End one_step.

(** ** The concrete inputs *)

Section samples.
Import Probabilistic Sample.
#[local] Existing Instance canonical_iteration.

(** C1, counterexample: on a fresh table the two-step episode leaves
    [value_of(s0, a0)] at zero, not at [0.45]. *)
Lemma one_step_update_on_fresh_table :
  ∃ p', Learning.operator_call 3 half_rate two_steps fresh = Done p' ∧
        (value p' s1 a1).1 = 1%float ∧
        (value p' s0 a0).1 = 0%float ∧
        PrimFloat.eqb (value p' s0 a0).1 0.45 = false.
Proof. eexists. split; [reflexivity|]. by vm_compute. Qed.

(** The one-step update at the fresh table, where [b] is zero. *)
Lemma one_step_update_witness :
  ∃ p', Learning.operator_call 3 half_rate two_steps fresh = Done p' ∧
        (value p' s1 a1).1 = 1%float ∧
        (value p' s0 a0).1 = (0 + 0.5 * (0 + 0.9 * 0 - 0))%float.
Proof.
  apply (one_step_update_reads_before_write fresh 0%nat 1%nat a0 a1 0%float 3);
    [reflexivity|reflexivity|reflexivity|lia].
Defined.

(** Applied a second time, the episode finds [1.0] for [s1] and leaves
    [0.45] for [(s0, a0)]. *)
Example one_step_update_second_pass :
  ∃ p1 p2, Learning.operator_call 3 half_rate two_steps fresh = Done p1 ∧
           Learning.operator_call 3 half_rate two_steps p1 = Done p2 ∧
           (value p2 s1 a1).1 = 1%float ∧
           (value p2 s0 a0).1 = 0.45%float.
Proof. do 2 eexists. split; [reflexivity|]. split; [reflexivity|]. by vm_compute. Qed.

(** C3, counterexample: on an empty episode both algorithms return normally
    and leave the table as it was: no failure is raised. *)
Lemma empty_episode_is_not_rejected :
  Learning.operator_call 1 half_rate [] fresh = Done fresh ∧
  operator_call true 1 fresh_probabilistic [] fresh
  = Done (fresh, fresh_probabilistic).
Proof. split; reflexivity. Qed.

(** C2, the code against the claim: in [branching] the pair [(home, go)] has
    count 1 for [west] and two distinct successors.  [q_value] at index 0
    takes the integer quotient [1 / 2 = 0] for [prob] and writes [0.0]; with
    the quotient taken in [value_type], [prob] is [0.5] and the value is
    [0.5]. *)
Theorem quotient_is_truncated (numerator_first : bool) :
  ∃ qp1 p1,
    accounting_pass 5 branching fresh_probabilistic = Done qp1 ∧
    count_of (memory qp1) 0%nat 0%nat 1%nat = 1 ∧
    successors_of (memory qp1) 0%nat 0%nat = 2 ∧
    q_value numerator_first qp1 branching 0 fresh
    = Done ((home, go, 0%float), p1, qp1) ∧
    specified_prob 1 2 = 0.5%float ∧
    specified_value (specified_prob 1 2) (s_reward home) (gamma qp1)
      (best_value fresh west).1 = 0.5%float.
Proof.
  do 2 eexists. split; [reflexivity|]. split; [reflexivity|].
  split; [reflexivity|]. split; [by destruct numerator_first|].
  by vm_compute.
Qed.

(** C8, counterexample: [there_and_back] makes the transition from [s0] by
    [a0] to [s1] twice, so feeding it once raises that count from 0 to 2,
    not to 1. *)
Lemma repeated_transition_counts_twice :
  ∃ p' qp',
    feed true 5 there_and_back 1 (fresh, fresh_probabilistic) = Done (p', qp') ∧
    count_of (memory fresh_probabilistic) 0%nat 0%nat 1%nat = 0 ∧
    count_of (memory qp') 0%nat 0%nat 1%nat = 2 ∧
    count_of (memory qp') 0%nat 0%nat 1%nat
    ≠ count_of (memory fresh_probabilistic) 0%nat 0%nat 1%nat + 1.
Proof. do 2 eexists. split; [reflexivity|]. by vm_compute. Qed.

(** The empty memory holds no count out of range. *)
Lemma fresh_counts_in_range : counts_in_range (memory fresh_probabilistic).
Proof. intros s a n. vm_compute. split; congruence. Defined.

(** Accumulation at [there_and_back], fed three times to a fresh instance. *)
Lemma feeding_accumulates_witness :
  ∃ p' qp',
    feed true 5 there_and_back 3 (fresh, fresh_probabilistic) = Done (p', qp') ∧
    count_of (memory qp') 0%nat 0%nat 1%nat =
      size_wrap (count_of (memory fresh_probabilistic) 0%nat 0%nat 1%nat +
                 Z.of_nat 3 * occurrences there_and_back (0%nat, 0%nat, 1%nat)) ∧
    (count_of (memory fresh_probabilistic) 0%nat 0%nat 1%nat +
       Z.of_nat 3 * occurrences there_and_back (0%nat, 0%nat, 1%nat) < 2 ^ 64 →
     count_of (memory qp') 0%nat 0%nat 1%nat =
       count_of (memory fresh_probabilistic) 0%nat 0%nat 1%nat +
       Z.of_nat 3 * occurrences there_and_back (0%nat, 0%nat, 1%nat) ∧
     count_of (memory fresh_probabilistic) 0%nat 0%nat 1%nat
     ≤ count_of (memory qp') 0%nat 0%nat 1%nat).
Proof.
  apply (feeding_accumulates true 5 there_and_back 3 fresh fresh_probabilistic
           0%nat 0%nat 1%nat);
    [reflexivity|simpl; lia|apply fresh_counts_in_range].
Defined.

(** Three feedings of [there_and_back] leave the count of its repeated
    transition at 6. *)
Example feeding_there_and_back :
  occurrences there_and_back (0%nat, 0%nat, 1%nat) = 2 ∧
  ∃ p' qp',
    feed true 5 there_and_back 3 (fresh, fresh_probabilistic) = Done (p', qp') ∧
    count_of (memory qp') 0%nat 0%nat 1%nat = 6.
Proof.
  split; [reflexivity|]. do 2 eexists.
  split; [vm_compute; reflexivity|]. by vm_compute.
Qed.

(** The terminal rule at [two_steps], on a fresh table and instance. *)
Lemma terminal_rule_witness :
  (∃ p', Learning.operator_call 3 half_rate two_steps fresh = Done p' ∧
         (value p' s1 a1).1 = 1%float) ∧
  (∃ p' qp', operator_call true 3 fresh_probabilistic two_steps fresh
             = Done (p', qp') ∧
         (value p' s1 a1).1 = 1%float).
Proof.
  apply (terminal_rule half_rate fresh_probabilistic true two_steps fresh 3
           (Link s1 a1)); [reflexivity|reflexivity|simpl; lia].
Defined.

(** The divisor at index 2 of [branching], the second visit of [home]. *)
Lemma denominator_nonzero_witness :
  ∃ qp1 p_j step next,
    accounting_pass 5 branching fresh_probabilistic = Done qp1 ∧
    update_pass_until false 5 branching 2 (fresh, qp1) = Done (p_j, qp1) ∧
    branching !! Z.to_nat 2 = Some step ∧
    branching !! Z.to_nat (2 + 1) = Some next ∧
    is_Some (entry_of (memory qp1) (s_trait (l_state step))
               (a_trait (l_action step)) (s_trait (l_state next))) ∧
    (quotient_operands false (memory qp1) (s_trait (l_state step))
       (a_trait (l_action step)) (s_trait (l_state next))).1.2 ≠ 0 ∧
    ∃ p', operator_call false 5 fresh_probabilistic branching fresh
          = Done (p', qp1).
Proof.
  apply (denominator_nonzero false fresh_probabilistic branching fresh 5 2);
    [vm_compute; split; congruence|reflexivity|simpl; lia].
Defined.

(** The frame of [update] at two distinct pairs of the fresh table. *)
Lemma update_frame_witness :
  stored (update fresh s0 a0 1%float) s1 a1 = stored fresh s1 a1 ∧
  stored (update fresh s0 a0 1%float) s0 a0 = Some 1%float.
Proof. apply (update_frame fresh s0 a0 1%float s1 a1). reflexivity. Defined.

(** The inserting reads at the fresh table. *)
Lemma best_reads_insert_state_witness :
  best_value fresh s0 = (0%float, Policy (<[0%nat := ∅]> (policies fresh))) ∧
  best_action fresh s0 = (None, Policy (<[0%nat := ∅]> (policies fresh))) ∧
  (0%nat ∉ dom (policies fresh)) ∧
  dom (policies (best_value fresh s0).2) = {[0%nat]} ∪ dom (policies fresh) ∧
  dom (policies (best_action fresh s0).2) = {[0%nat]} ∪ dom (policies fresh).
Proof. exact (best_reads_insert_state fresh s0 eq_refl). Defined.

(** The largest value of [tied], whose values [<] orders. *)
Lemma best_value_is_maximum_witness :
  (∀ k v, recorded tied s0 !! k = Some v →
          PrimFloat.ltb (best_value tied s0).1 v = false) ∧
  ∃ k_best, (best_action tied s0).1 = Some (Action k_best) ∧
            recorded tied s0 !! k_best = Some (best_value tied s0).1.
Proof.
  refine (best_value_is_maximum tied s0 _ eq_refl).
  intros E. apply (f_equal (λ m, m !! 1%nat)) in E. vm_compute in E. congruence.
Defined.

(** The table of the specification's example: the best value is [7.5], and
    the best action is the second or the third, by the order of traversal. *)
Example best_value_tied :
  (best_value tied s0).1 = 7.5%float ∧
  (best_action tied s0).1 = Some (Action 2%nat) ∧
  (best_action (Iteration0 := reversed_iteration nat float) tied s0).1
  = Some (Action 3%nat).
Proof. by vm_compute. Qed.

(** A read by [value] leaves a zero for its pair, which [best_action] then
    finds: after it the state has an action on record. *)
Example value_read_leaves_an_action :
  (best_action fresh s0).1 = None ∧
  (best_action (value fresh s0 a0).2 s0).1 = Some a0.
Proof. by vm_compute. Qed.

(** [q_value] called on an instance that has not accounted the episode:
    with the size read first the divisor is zero; with the count read
    first, that read has already inserted the successor. *)
Example unaccounted_q_value :
  q_value false fresh_probabilistic two_steps 0 fresh = Undefined DivisionByZero ∧
  ∃ p' qp', q_value true fresh_probabilistic two_steps 0 fresh
            = Done ((s0, a0, 0%float), p', qp').
Proof. split; [reflexivity|]. do 2 eexists. by vm_compute. Qed.
End samples.

(** * Further properties of the code *)

(** ** Writes and reads of the policy table *)

Section table_laws.
Context {state_trait action_trait value_type : Type}.
Context `{Countable state_trait} `{Countable action_trait}.
Context `{!ValueType value_type}.
Context `{!Iteration action_trait value_type}.

#[local] Abbreviation state := (state state_trait value_type).
#[local] Abbreviation action := (action action_trait).
#[local] Abbreviation policy := (policy state_trait action_trait value_type).

Implicit Types (p : policy) (s : state) (a : action) (q : value_type).

Lemma link_eqb_true s a s' a' :
  link_eqb (Link s a) (Link s' a') = true ↔
  s_trait s = s_trait s' ∧ a_trait a = a_trait a'.
Proof.
  unfold link_eqb, action_eqb, state_eqb. simpl.
  rewrite andb_true_iff, !bool_decide_eq_true. tauto.
Qed.

Lemma link_eqb_false s a s' a' :
  link_eqb (Link s a) (Link s' a') = false ↔
  s_trait s ≠ s_trait s' ∨ a_trait a ≠ a_trait a'.
Proof.
  rewrite <- not_true_iff_false, link_eqb_true.
  destruct (decide (s_trait s = s_trait s')), (decide (a_trait a = a_trait a'));
    tauto.
Qed.

Lemma recorded_insert p s (am : gmap action_trait value_type) s' :
  recorded (Policy (<[s_trait s := am]> (policies p))) s' =
  if decide (s_trait s = s_trait s') then am else recorded p s'.
Proof.
  unfold recorded. simpl. case_decide as E.
  - by rewrite E, lookup_insert_eq.
  - by rewrite lookup_insert_ne.
Qed.

Lemma recorded_update p s a q s' :
  recorded (update p s a q) s' =
  if decide (s_trait s = s_trait s') then <[a_trait a := q]> (recorded p s)
  else recorded p s'.
Proof. by rewrite update_eq, recorded_insert. Qed.

Lemma policy_eq p p' : policies p = policies p' → p = p'.
Proof. destruct p, p'. simpl. by intros ->. Qed.

(** X1 (last write wins): a second [update] of a pair replaces the first;
    the table is the one the second write alone would leave. *)
Theorem update_overwrites p s a q q' :
  update (update p s a q) s a q' = update p s a q'.
Proof.
  rewrite (update_eq (update p s a q)), recorded_update, decide_True by done.
  rewrite !update_eq. simpl. by rewrite !insert_insert_eq.
Qed.

(** X2 (read after write): [value] returns what [update] wrote for the
    pair, and that read leaves the written table as it is. *)
Theorem value_after_update p s a q :
  value (update p s a q) s a = (q, update p s a q).
Proof.
  rewrite value_eq, stored_update_same. simpl. f_equal.
  apply policy_eq. simpl.
  rewrite recorded_update, decide_True by done.
  rewrite update_eq. simpl. by rewrite !insert_insert_eq.
Qed.


Lemma stored_recorded p s a : stored p s a = recorded p s !! a_trait a.
Proof.
  unfold stored, recorded. destruct (policies p !! s_trait s); simpl; [done|].
  by rewrite lookup_empty.
Qed.

Lemma recorded_touch p s s' :
  recorded (Policy (<[s_trait s := recorded p s]> (policies p))) s' = recorded p s'.
Proof.
  rewrite recorded_insert. case_decide as E; [|done].
  unfold recorded. by rewrite E.
Qed.

Lemma actions_eq p s :
  actions p s =
  (recorded p s, Policy (<[s_trait s := recorded p s]> (policies p))).
Proof. unfold actions, recorded. by rewrite subscript_eq. Qed.

Lemma recorded_searching_reads p s s' :
  recorded (best_value p s).2 s' = recorded p s' ∧
  recorded (best_action p s).2 s' = recorded p s' ∧
  recorded (actions p s).2 s' = recorded p s'.
Proof.
  rewrite best_value_eq, best_action_eq, actions_eq. simpl.
  by rewrite !recorded_touch.
Qed.

Lemma recorded_value_read p s a s' :
  recorded (value p s a).2 s' =
  if decide (s_trait s = s_trait s')
  then <[a_trait a := (value p s a).1]> (recorded p s)
  else recorded p s'.
Proof. rewrite value_eq. simpl. by rewrite recorded_insert. Qed.

(** X4 (searching reads keep the records): [best_value], [best_action] and
    [actions] insert at most an empty entry for their state; the actions on
    record for every state, and so the result of every later read, are as
    before. *)
Theorem searching_reads_keep_records p s s' :
  recorded (best_value p s).2 s' = recorded p s' ∧
  recorded (best_action p s).2 s' = recorded p s' ∧
  recorded (actions p s).2 s' = recorded p s' ∧
  (actions p s).1 = recorded p s.
Proof.
  destruct (recorded_searching_reads p s s') as (-> & -> & ->).
  by rewrite actions_eq.
Qed.

(** X5 (a [value] read records a zero): reading a pair puts its action on
    record with the value read, zero if the pair was absent.  No value a
    later [value] read returns changes, but the state now has an action:
    [best_action] no longer returns null for it. *)
Theorem value_read_records p s a s' a' :
  (recorded (value p s a).2 s' =
   if decide (s_trait s = s_trait s')
   then <[a_trait a := (value p s a).1]> (recorded p s)
   else recorded p s') ∧
  (value (value p s a).2 s' a').1 = (value p s' a').1 ∧
  (best_action (value p s a).2 s).1 ≠ None.
Proof.
  pose proof (recorded_value_read p s a s') as Hrec.
  split; [done|]. split.
  - rewrite (value_eq (value p s a).2), (value_eq p s'). simpl.
    rewrite !stored_recorded, Hrec. case_decide as Es; [|done].
    destruct (decide (a_trait a = a_trait a')) as [Ea|Ea].
    + rewrite <- Ea, lookup_insert_eq. simpl.
      rewrite value_eq, stored_recorded. simpl. unfold recorded. by rewrite Es.
    + rewrite lookup_insert_ne by done. unfold recorded. by rewrite Es.
  - rewrite best_action_eq. simpl.
    assert (recorded (value p s a).2 s ≠ ∅) as Hne.
    { rewrite value_eq. simpl. rewrite recorded_insert, decide_True by done.
      apply insert_non_empty. }
    apply iterate_nonempty in Hne.
    destruct (iterate (recorded (value p s a).2 s)); [done|]. done.
Qed.

(** X6 (reads repeat): a read made a second time returns what it returned
    the first time and changes nothing more. *)
Theorem reads_are_idempotent p s a :
  value (value p s a).2 s a = value p s a ∧
  best_value (best_value p s).2 s = best_value p s ∧
  best_action (best_action p s).2 s = best_action p s ∧
  actions (actions p s).2 s = actions p s.
Proof.
  split; [|split; [|split]].
  - rewrite (value_eq (value p s a).2). rewrite !stored_recorded.
    pose proof (recorded_value_read p s a s) as Hrec.
    rewrite decide_True in Hrec by done. rewrite Hrec, lookup_insert_eq. simpl.
    rewrite insert_insert_eq. rewrite (value_eq p s a) at 3. simpl.
    rewrite insert_insert_eq.
    by rewrite value_eq.
  - rewrite (best_value_eq (best_value p s).2).
    destruct (recorded_searching_reads p s s) as (-> & _).
    rewrite !best_value_eq. simpl. by rewrite insert_insert_eq.
  - rewrite (best_action_eq (best_action p s).2).
    destruct (recorded_searching_reads p s s) as (_ & -> & _).
    rewrite !best_action_eq. simpl. by rewrite insert_insert_eq.
  - rewrite (actions_eq (actions p s).2).
    destruct (recorded_searching_reads p s s) as (_ & _ & ->).
    rewrite !actions_eq. simpl. by rewrite insert_insert_eq.
Qed.

(** X7 (the two searches agree): [best_action] returns null exactly when the
    state has no action on record, and then [best_value] returns zero;
    otherwise the action it returns stores the value [best_value] returns.
    Both leave the same table. *)
Theorem best_action_matches_best_value p s :
  ((best_action p s).1 = None ↔ recorded p s = ∅) ∧
  (recorded p s = ∅ → (best_value p s).1 = v_zero) ∧
  (∀ k, (best_action p s).1 = Some (Action k) →
        recorded p s !! k = Some (best_value p s).1) ∧
  (best_action p s).2 = (best_value p s).2.
Proof.
  rewrite best_value_eq, best_action_eq. simpl.
  destruct (max_element by_second (iterate (recorded p s))) as [[k v]|] eqn:E.
  - assert ((k, v) ∈ iterate (recorded p s)) as Hin.
    { destruct (iterate (recorded p s)) as [|x l]; [done|].
      simpl in E. injection E as <-. apply max_element_from_elem. }
    apply iterate_elem in Hin.
    split; [|split; [|split]]; [|intros Hr|intros k' [= <-]|done]; [|by rewrite Hr in Hin|done].
    split; [done|]. intros Hr. by rewrite Hr in Hin.
  - assert (recorded p s = ∅) as Hr.
    { destruct (decide (recorded p s = ∅)) as [|Hne]; [done|].
      apply iterate_nonempty in Hne.
      destruct (iterate (recorded p s)); [done|]. done. }
    by split; [|split; [|split]].
Qed.
End table_laws.

(** ** Identity and ordering of states, actions and links *)

Section identity_laws.
Context {state_trait action_trait value_type : Type}.
Context `{Countable state_trait} `{Countable action_trait}.
Context `{!ValueType value_type}.
Context `{!Iteration action_trait value_type}.
Context `{!TraitOrder state_trait} `{!TraitOrder action_trait}.
Context `{!TraitHash state_trait} `{!TraitHash action_trait}.

#[local] Abbreviation state := (state state_trait value_type).
#[local] Abbreviation action := (action action_trait).
#[local] Abbreviation link := (link state_trait action_trait value_type).
#[local] Abbreviation policy := (policy state_trait action_trait value_type).

Implicit Types (p : policy) (x y z : link) (q : value_type).


(** X9 ([link::operator<] is a strict partial order): where [<] on both
    traits is irreflexive and transitive, so is [<] on links; it is then
    asymmetric, and links that [operator==] takes for equal are not ordered. *)
Theorem link_lt_strict_order x y z :
  strict_order (trait_lt (T := state_trait)) →
  strict_order (trait_lt (T := action_trait)) →
  link_ltb x x = false ∧
  (link_ltb x y = true → link_ltb y x = false) ∧
  (link_ltb x y = true → link_ltb y z = true → link_ltb x z = true) ∧
  (link_eqb x y = true → link_ltb x y = false ∧ link_ltb y x = false).
Proof.
  intros [Hsi Hst] [Hai Hat].
  unfold link_ltb, action_ltb, state_ltb, link_eqb, action_eqb, state_eqb.
  split; [by rewrite Hai|]. split; [|split].
  - intros [Ha Hs]%andb_true_iff.
    destruct (trait_lt (a_trait (l_action y)) (a_trait (l_action x))) eqn:E;
      [|done].
    pose proof (Hat _ _ _ Ha E) as C. by rewrite Hai in C.
  - intros [Ha Hs]%andb_true_iff [Ha' Hs']%andb_true_iff.
    by rewrite (Hat _ _ _ Ha Ha'), (Hst _ _ _ Hs Hs').
  - rewrite andb_true_iff, !bool_decide_eq_true. intros [Ea Es].
    by rewrite Ea, Es, !Hai.
Qed.

(** X10 ([link::operator<] is not a strict weak ordering): with two ordered
    state traits and two ordered action traits, the links [(t1, b1)] and
    [(t2, b2)] are ordered, but [(t2, b1)] is ordered with neither: the
    order cannot sort links or key an ordered container. *)
Theorem link_lt_not_strict_weak (t1 t2 : state_trait) (b1 b2 : action_trait)
    (r : value_type) :
  trait_lt t1 t2 = true → trait_lt b1 b2 = true →
  trait_lt t2 t2 = false → trait_lt b1 b1 = false →
  let x : link := Link (State r t1) (Action b1) in
  let y : link := Link (State r t2) (Action b2) in
  let z : link := Link (State r t2) (Action b1) in
  link_ltb x y = true ∧
  link_ltb x z = false ∧ link_ltb z x = false ∧
  link_ltb z y = false ∧ link_ltb y z = false ∧
  ¬ strict_weak_on link_ltb [x; y; z].
Proof.
  intros Ht Hb Ht2 Hb1 x y z.
  assert (link_ltb x y = true) as Hxy
    by (unfold link_ltb, action_ltb, state_ltb; simpl; by rewrite Ht, Hb).
  assert (link_ltb x z = false) as Hxz
    by (unfold link_ltb, action_ltb, state_ltb; simpl; by rewrite Hb1).
  assert (link_ltb z y = false) as Hzy
    by (unfold link_ltb, action_ltb, state_ltb; simpl; by rewrite Ht2, andb_false_r).
  split; [done|]. split; [done|]. split.
  { unfold link_ltb, action_ltb, state_ltb; simpl; by rewrite Hb1. }
  split; [done|]. split.
  { unfold link_ltb, action_ltb, state_ltb; simpl; by rewrite Ht2, andb_false_r. }
  intros Hweak.
  destruct (Hweak x y z) as [_ [E|E]]; [set_solver..|done| |]; congruence.
Qed.
End identity_laws.

(** ** Bounds, termination and the range of the loop counter *)

Section running.
Import Probabilistic.
Context {state_trait action_trait value_type : Type}.
Context `{Countable state_trait} `{Countable action_trait}.
Context `{!ValueType value_type}.
Context `{!Iteration action_trait value_type}.

#[local] Abbreviation markov_chain := (markov_chain state_trait action_trait value_type).
#[local] Abbreviation policy := (policy state_trait action_trait value_type).
#[local] Abbreviation link := (link state_trait action_trait value_type).
#[local] Abbreviation q_probabilistic := (q_probabilistic state_trait action_trait value_type).

Implicit Types (ql : Learning.q_learning value_type) (qp : q_probabilistic)
  (e : markov_chain) (p : policy) (numerator_first : bool).

(** X11 (no bounds check in [q_value]): called with an index at or past the
    end of the episode, [q_value] of either algorithm indexes the deque out
    of range, which is undefined; nothing is computed or written. *)
Theorem q_value_out_of_range ql qp numerator_first e p index :
  0 ≤ index → deque_size e ≤ index →
  Learning.q_value ql e index p = Undefined OutOfBounds ∧
  q_value numerator_first qp e index p = Undefined OutOfBounds.
Proof.
  intros Hpos Hge. unfold Learning.q_value, q_value, deque_at.
  rewrite (lookup_ge_None_2 e (Z.to_nat index)); [done|].
  unfold deque_size in Hge. lia.
Qed.

Lemma for_loop_more_fuel {St : Type} (body : Z → St → outcome St) n fuel fuel' i st st' :
  for_loop fuel n body i st = Done st' → (fuel ≤ fuel')%nat →
  for_loop fuel' n body i st = Done st'.
Proof.
  revert fuel' i st. induction fuel as [|fuel IH]; intros fuel' i st; [done|].
  intros Hrun Hle. destruct fuel' as [|fuel']; [lia|].
  simpl in *. destruct (i <? n); [|done].
  destruct (body i st) as [st1| |]; simpl in *; [|done..].
  apply IH; [done|lia].
Qed.

Lemma learning_operator_call_defined ql e p fuel :
  deque_size e < 2 ^ 32 → (length e < fuel)%nat →
  ∃ p', Learning.operator_call fuel ql e p = Done p'.
Proof.
  intros Hn Hfuel. unfold Learning.operator_call.
  destruct (for_loop_invariant (λ _ _, True) (Learning.update_step ql e)
              (deque_size e) fuel 0 p) as (p' & Hrun & _);
    [unfold deque_size; lia|done|unfold deque_size; lia|done| |by exists p'].
  intros j p0 Hj _.
  destruct (learning_update_step_defined ql e p0 j) as [p' Hp']; [lia|done|].
  by exists p'.
Qed.

(** X12 (the calls return): on an episode shorter than [2 ^ 32] links,
    [operator()] of either algorithm returns normally, with no index out of
    range and no zero divisor, whatever the table and the memory hold; the
    result is the same for every fuel above the length. *)
Theorem operator_calls_return ql qp numerator_first e p :
  deque_size e < 2 ^ 32 →
  ∃ p1 p2 qp2, ∀ fuel, (length e < fuel)%nat →
    Learning.operator_call fuel ql e p = Done p1 ∧
    operator_call numerator_first fuel qp e p = Done (p2, qp2).
Proof.
  intros Hn.
  destruct (learning_operator_call_defined ql e p (S (length e)))
    as [p1 Hp1]; [done|lia|].
  destruct (operator_call_counts numerator_first (S (length e)) qp e p)
    as (p2 & qp2 & Hcall & Hacc & Hupd & _); [done|lia|].
  exists p1, p2, qp2. intros fuel Hfuel. split.
  - unfold Learning.operator_call in *.
    apply (for_loop_more_fuel _ _ (S (length e))); [done|lia].
  - unfold operator_call, accounting_pass, update_pass in *.
    destruct (for_loop (S (length e)) (deque_size e) (account_step e) 0 (memory qp))
      as [mem| |] eqn:Eacc; [|done..].
    rewrite (for_loop_more_fuel _ _ (S (length e)) fuel _ _ mem Eacc) by lia.
    simpl in *. injection Hacc as <-.
    apply (for_loop_more_fuel _ _ (S (length e))); [done|lia].
Qed.

Lemma for_loop_never_exits {St : Type} (body : Z → St → outcome St) n fuel i st st' :
  2 ^ 32 ≤ n → 0 ≤ i < 2 ^ 32 → for_loop fuel n body i st ≠ Done st'.
Proof.
  intros Hn. revert i st. induction fuel as [|fuel IH]; intros i st Hi; [done|].
  simpl. destruct (Z.ltb_spec i n); [|lia].
  destruct (body i st) as [st1| |]; simpl; [|done..].
  apply IH. unfold uint_wrap. apply Z.mod_pos_bound. lia.
Qed.

(** X13 (the counter wraps): on an episode of [2 ^ 32] links or more the
    [unsigned int] counter of the loops wraps to zero before it reaches the
    size, so [operator()] of neither algorithm ever returns. *)
Theorem long_episode_never_returns ql qp numerator_first e p fuel :
  2 ^ 32 ≤ deque_size e →
  (∀ p', Learning.operator_call fuel ql e p ≠ Done p') ∧
  (∀ r, operator_call numerator_first fuel qp e p ≠ Done r).
Proof.
  intros Hn. split.
  - intros p'. apply for_loop_never_exits; [done|lia].
  - intros r. unfold operator_call, accounting_pass.
    destruct (for_loop fuel (deque_size e) (account_step e) 0 (memory qp))
      as [mem| |] eqn:Eacc; [|done..].
    by apply for_loop_never_exits in Eacc; [|done|lia].
Qed.
End running.

(** ** What a call leaves alone *)

Section frames.
Import Probabilistic.
Context {state_trait action_trait value_type : Type}.
Context `{Countable state_trait} `{Countable action_trait}.
Context `{!ValueType value_type}.
Context `{!Iteration action_trait value_type}.

#[local] Abbreviation state := (state state_trait value_type).
#[local] Abbreviation action := (action action_trait).
#[local] Abbreviation markov_chain := (markov_chain state_trait action_trait value_type).
#[local] Abbreviation policy := (policy state_trait action_trait value_type).
#[local] Abbreviation link := (link state_trait action_trait value_type).
#[local] Abbreviation q_probabilistic := (q_probabilistic state_trait action_trait value_type).

Implicit Types (ql : Learning.q_learning value_type) (qp : q_probabilistic)
  (e : markov_chain) (p : policy) (s : state) (a : action)
  (step next : link) (numerator_first : bool).

Lemma stored_best_value p s s' a' :
  stored (best_value p s).2 s' a' = stored p s' a'.
Proof.
  rewrite !stored_recorded.
  by destruct (recorded_searching_reads p s s') as (-> & _).
Qed.

Lemma stored_value_other p s a s' a' :
  link_eqb (Link s' a') (Link s a) = false →
  stored (value p s a).2 s' a' = stored p s' a'.
Proof.
  intros Hne%link_eqb_false. rewrite !stored_recorded.
  rewrite (recorded_value_read p s a s').
  case_decide as Es; [|done].
  destruct Hne as [?|Ha]; [congruence|].
  rewrite lookup_insert_ne by congruence. unfold recorded. by rewrite Es.
Qed.

(** One step of either update loop writes the pair of its own link only. *)
Lemma learning_update_step_frame ql e p p' j step s' a' :
  0 ≤ j < deque_size e → deque_size e < 2 ^ 32 →
  e !! Z.to_nat j = Some step →
  link_eqb (Link s' a') step = false →
  Learning.update_step ql e j p = Done p' →
  stored p' s' a' = stored p s' a'.
Proof.
  intros Hj Hn Hstep Hne. destruct step as [s a].
  destruct (decide (j = deque_size e - 1)) as [->|Hlast].
  - rewrite (learning_update_step_last _ _ _ (Link s a)) by (done || lia).
    intros [= <-]. simpl. by rewrite stored_update, Hne.
  - destruct (deque_at_in_range e (j + 1)) as (next & Hnext & _); [lia|].
    rewrite (learning_update_step_inner _ _ _ _ (Link s a) next) by (done || lia).
    simpl. intros [= <-].
    by rewrite stored_update, Hne, stored_best_value, stored_value_other.
Qed.

Lemma probabilistic_update_step_frame numerator_first qp e p p' qp' j step s' a' :
  0 ≤ j < deque_size e → deque_size e < 2 ^ 32 →
  e !! Z.to_nat j = Some step →
  link_eqb (Link s' a') step = false →
  update_step numerator_first e j (p, qp) = Done (p', qp') →
  stored p' s' a' = stored p s' a'.
Proof.
  intros Hj Hn Hstep Hne. destruct step as [s a].
  destruct (decide (j = deque_size e - 1)) as [->|Hlast].
  - rewrite (probabilistic_update_step_last _ _ _ _ (Link s a)) by (done || lia).
    intros [= <- _]. by rewrite stored_update, Hne.
  - destruct (deque_at_in_range e (j + 1)) as (next & Hnext & _); [lia|].
    unfold update_step, q_value. simpl.
    rewrite (deque_at_Some _ _ _ Hstep). simpl.
    rewrite last_index_small by lia.
    destruct (Z.ltb_spec j (deque_size e - 1)); [|lia].
    destruct (value p s a) as [q p1] eqn:Ev. simpl.
    rewrite (next_index_small e j), (deque_at_Some _ _ _ Hnext) by (done || lia).
    simpl. destruct (best_value p1 (l_state next)) as [q_next p2] eqn:Eb.
    destruct (quotient_operands _ _ _ _ _) as [[num den] mem].
    destruct (den =? 0); [done|]. simpl. intros [= <- _].
    rewrite stored_update, Hne.
    replace p2 with (best_value p1 (l_state next)).2 by (by rewrite Eb).
    rewrite stored_best_value.
    replace p1 with (value p s a).2 by (by rewrite Ev).
    by apply stored_value_other.
Qed.

(** X14 (frame of a call): [operator()] of either algorithm leaves what the
    table stores for every pair that is no link of the episode as it was:
    it writes, and by its reads inserts, only pairs of the episode. *)
Theorem operator_call_frame ql qp numerator_first e p fuel s' a' :
  (∀ l, l ∈ e → link_eqb (Link s' a') l = false) →
  deque_size e < 2 ^ 32 → (length e < fuel)%nat →
  (∃ p', Learning.operator_call fuel ql e p = Done p' ∧
         stored p' s' a' = stored p s' a') ∧
  (∃ p' qp', operator_call numerator_first fuel qp e p = Done (p', qp') ∧
         stored p' s' a' = stored p s' a').
Proof.
  intros Hout Hn Hfuel. split.
  - unfold Learning.operator_call.
    destruct (for_loop_invariant (λ _ p', stored p' s' a' = stored p s' a')
                (Learning.update_step ql e) (deque_size e) fuel 0 p)
      as (p' & Hrun & Hp');
      [unfold deque_size; lia|done|unfold deque_size; lia|done| |by exists p'].
    intros j p0 Hj Hp0.
    destruct (learning_update_step_defined ql e p0 j) as [p' Hp']; [lia|done|].
    exists p'. split; [done|]. rewrite <- Hp0.
    destruct (deque_at_in_range e j) as (step & Hstep & _); [lia|].
    apply (learning_update_step_frame ql e p0 p' j step); [lia|done..| |done].
    apply Hout. by eapply list_elem_of_lookup_2.
  - destruct (operator_call_counts numerator_first fuel qp e p)
      as (p1 & qp1 & Hcall & Hacc & Hupd & Haccd & _); [done..|].
    unfold operator_call. rewrite Hacc. simpl. unfold update_pass.
    destruct (for_loop_invariant
                (λ _ st, st.2 = qp1 ∧ stored st.1 s' a' = stored p s' a')
                (update_step numerator_first e) (deque_size e) fuel 0 (p, qp1))
      as ([p' qp'] & Hrun & Hqp' & Hp');
      [unfold deque_size; lia|done|unfold deque_size; lia|done| |by exists p', qp'].
    intros j [p0 qp0] Hj [Hqp0 Hp0]. simpl in *. subst qp0.
    destruct (probabilistic_update_step_defined numerator_first qp1 e p0 j)
      as [p' Hp']; [lia|done|done|].
    exists (p', qp1). split; [done|]. split; [done|]. simpl. rewrite <- Hp0.
    destruct (deque_at_in_range e j) as (step & Hstep & _); [lia|].
    apply (probabilistic_update_step_frame numerator_first qp1 e p0 p' qp1 j step);
      [lia|done..| |done].
    apply Hout. by eapply list_elem_of_lookup_2.
Qed.

(** X15 (an episode of one link): [operator()] of either algorithm on a
    single link is the one write of its state's reward for its pair; the
    probabilistic instance accounts nothing. *)
Theorem single_link_episode ql qp numerator_first p step fuel :
  (1 < fuel)%nat →
  Learning.operator_call fuel ql [step] p
  = Done (update p (l_state step) (l_action step) (s_reward (l_state step))) ∧
  operator_call numerator_first fuel qp [step] p
  = Done (update p (l_state step) (l_action step) (s_reward (l_state step)), qp).
Proof.
  intros Hfuel. destruct fuel as [|[|fuel]]; [lia..|].
  split; [done|]. by destruct qp.
Qed.
End frames.

(** ** The memory of the probabilistic algorithm *)

Section memory_laws.
Import Probabilistic.
Context {state_trait action_trait value_type : Type}.
Context `{Countable state_trait} `{Countable action_trait}.
Context `{!ValueType value_type}.
Context `{!Iteration action_trait value_type}.

#[local] Abbreviation markov_chain := (markov_chain state_trait action_trait value_type).
#[local] Abbreviation policy := (policy state_trait action_trait value_type).
#[local] Abbreviation link := (link state_trait action_trait value_type).
#[local] Abbreviation q_probabilistic := (q_probabilistic state_trait action_trait value_type).
#[local] Abbreviation memory_type := (observation state_trait action_trait).

Implicit Types (qp : q_probabilistic) (e : markov_chain) (p : policy)
  (step next : link) (mem : memory_type).

#[local] Arguments quotient_operands : simpl never.

Lemma frequency_of_with_count mem s a n c :
  frequency_of (with_count mem s a n c) s a = <[n := c]> (frequency_of mem s a).
Proof.
  unfold with_count. unfold frequency_of at 1, transitions_of at 1.
  by rewrite lookup_insert_eq; simpl; rewrite lookup_insert_eq.
Qed.

Lemma count_of_unrecorded mem s a n :
  frequency_of mem s a = ∅ → count_of mem s a n = 0.
Proof. unfold count_of, entry_of. intros ->. by rewrite lookup_empty. Qed.

(** X16 (a pair the memory has no successor for): [q_value] below the last
    index on such a pair divides by zero when the size is read before the
    count.  When the count is read first, that read has inserted the
    successor with count zero: the divisor is one, [prob] is zero, and the
    call returns with the entry left in the memory. *)
Theorem unaccounted_pair_reads qp e p j step next :
  0 ≤ j < deque_size e - 1 → deque_size e < 2 ^ 32 →
  e !! Z.to_nat j = Some step → e !! Z.to_nat (j + 1) = Some next →
  frequency_of (memory qp) (s_trait (l_state step)) (a_trait (l_action step)) = ∅ →
  q_value false qp e j p = Undefined DivisionByZero ∧
  ∃ p' qp',
    q_value true qp e j p =
    Done ((l_state step, l_action step,
           v_add (v_mul (v_of_size_t 0) (s_reward (l_state step)))
             (v_mul (gamma qp)
                (v_mul (best_value (value p (l_state step) (l_action step)).2
                          (l_state next)).1
                       (v_of_size_t 0)))),
          p', qp') ∧
    entry_of (memory qp') (s_trait (l_state step)) (a_trait (l_action step))
      (s_trait (l_state next)) = Some 0 ∧
    successors_of (memory qp') (s_trait (l_state step)) (a_trait (l_action step)) = 1.
Proof.
  intros Hj Hn Hstep Hnext Hfree.
  set (s := s_trait (l_state step)) in *. set (a := a_trait (l_action step)) in *.
  set (n := s_trait (l_state next)).
  assert (entry_of (with_count (memory qp) s a n 0) s a n = Some 0) as Hentry
    by (by rewrite entry_of_with_count, decide_True).
  assert (successors_of (with_count (memory qp) s a n 0) s a = 1) as Hsucc.
  { unfold successors_of. rewrite frequency_of_with_count, Hfree.
    by rewrite insert_empty, map_size_singleton. }
  assert (quotient_operands false (memory qp) s a n
          = (0, 0, with_count (with_pair (memory qp) s a) s a n
                     (count_of (with_pair (memory qp) s a) s a n))) as Hden.
  { unfold quotient_operands. rewrite memory_size_eq, memory_count_eq.
    unfold successors_of. rewrite Hfree, map_size_empty. simpl. do 2 f_equal.
    unfold count_of, entry_of, frequency_of, transitions_of, with_pair.
    rewrite lookup_insert_eq. simpl. rewrite lookup_insert_eq. simpl.
    rewrite Hfree. by rewrite lookup_empty. }
  assert (quotient_operands true (memory qp) s a n
          = (0, 1, with_count (memory qp) s a n 0)) as Hnum.
  { unfold quotient_operands.
    rewrite memory_count_eq, (count_of_unrecorded _ _ _ _ Hfree).
    rewrite memory_size_eq, Hsucc.
    by rewrite (with_pair_present _ _ _ _ _ Hentry). }
  unfold q_value.
  rewrite (deque_at_Some _ _ _ Hstep). simpl.
  rewrite last_index_small by lia.
  destruct (Z.ltb_spec j (deque_size e - 1)); [|lia].
  destruct (value p (l_state step) (l_action step)) as [q p1]. simpl.
  rewrite (next_index_small e j), (deque_at_Some _ _ _ Hnext) by done. simpl.
  destruct (best_value p1 (l_state next)) as [q_next p2]. simpl.
  fold s a n. rewrite Hden, Hnum. simpl. split; [done|].
  do 2 eexists. split; [done|]. by simpl.
Qed.

Lemma accounting_keeps_entries e mem fuel :
  deque_size e < 2 ^ 32 → (length e < fuel)%nat →
  ∃ mem',
    for_loop fuel (deque_size e) (account_step e) 0 mem = Done mem' ∧
    ∀ s a n, is_Some (entry_of mem s a n) → is_Some (entry_of mem' s a n).
Proof.
  intros Hn Hfuel.
  apply (for_loop_invariant (λ _ mem',
      ∀ s a n, is_Some (entry_of mem s a n) → is_Some (entry_of mem' s a n)));
    [unfold deque_size; lia|done|unfold deque_size; lia|done|].
  intros j mem1 Hj Hkeep.
  destruct (decide (j = deque_size e - 1)) as [->|Hne].
  - rewrite account_step_last by lia. by exists mem1.
  - destruct (transition_at_inner e j) as (this & next & _ & _ & Ht); [lia|].
    rewrite (account_step_inner e j mem1 _ ltac:(lia) Hn Ht). simpl.
    eexists. split; [done|]. intros s a n Hsome.
    rewrite entry_of_with_count. case_decide; [done|]. by apply Hkeep.
Qed.

(** X17 (the memory only grows): a call of the probabilistic algorithm never
    removes an entry from its memory and never changes its discount rate;
    after it every transition the episode makes has an entry. *)
Theorem memory_only_grows numerator_first qp e p fuel :
  deque_size e < 2 ^ 32 → (length e < fuel)%nat →
  ∃ p' qp',
    operator_call numerator_first fuel qp e p = Done (p', qp') ∧
    gamma qp' = gamma qp ∧
    (∀ s a n, is_Some (entry_of (memory qp) s a n) →
              is_Some (entry_of (memory qp') s a n)) ∧
    (∀ i s a n, transition_at e i = Some (s, a, n) →
                is_Some (entry_of (memory qp') s a n)).
Proof.
  intros Hn Hfuel.
  destruct (operator_call_counts numerator_first fuel qp e p)
    as (p' & qp' & Hcall & Hacc & _ & Haccd & _); [done..|].
  destruct (accounting_keeps_entries e (memory qp) fuel Hn Hfuel)
    as (mem' & Hrun & Hkeep).
  unfold accounting_pass in Hacc. rewrite Hrun in Hacc. simpl in Hacc.
  injection Hacc as <-.
  exists p', (QProbabilistic (gamma qp) mem'). split; [done|]. split; [done|].
  split; [done|]. intros i s a n Ht. apply (Haccd i (s, a, n) Ht).
Qed.
End memory_laws.

(** ** Combining hashes *)

Section hashing.
Context `{TraitHash T}.
Implicit Types (seed : Z) (v : T).

Lemma lxor_in_range x y :
  0 ≤ x < 2 ^ 64 → 0 ≤ y < 2 ^ 64 → 0 ≤ Z.lxor x y < 2 ^ 64.
Proof.
  intros Hx Hy.
  assert (0 ≤ Z.lxor x y) as Hpos by (apply Z.lxor_nonneg; lia).
  split; [done|].
  destruct (decide (Z.lxor x y = 0)) as [->|Hne]; [done|].
  apply Z.log2_lt_pow2; [lia|].
  pose proof (Z.log2_lxor x y ltac:(lia) ltac:(lia)) as Hlog.
  assert (Z.log2 x < 64) as Hlx.
  { destruct (decide (x = 0)) as [->|]; [done|]. apply Z.log2_lt_pow2; lia. }
  assert (Z.log2 y < 64) as Hly.
  { destruct (decide (y = 0)) as [->|]; [done|]. apply Z.log2_lt_pow2; lia. }
  lia.
Qed.

Lemma lxor_cancel_l x y z : Z.lxor x y = Z.lxor x z → y = z.
Proof.
  intros E. apply (f_equal (Z.lxor x)) in E.
  by rewrite <- !Z.lxor_assoc, Z.lxor_nilpotent, !Z.lxor_0_l in E.
Qed.

(** X18 ([hash_combine] keeps hashes apart): the combined seed is again a
    [std::size_t], and with one seed two values with different hashes give
    different combined seeds. *)
Theorem hash_combine_separates seed v v' :
  0 ≤ seed < 2 ^ 64 →
  0 ≤ std_hash v < 2 ^ 64 → 0 ≤ std_hash v' < 2 ^ 64 →
  0 ≤ hash_combine seed v < 2 ^ 64 ∧
  (hash_combine seed v = hash_combine seed v' → std_hash v = std_hash v').
Proof.
  intros Hseed Hv Hv'. unfold hash_combine. split.
  - apply lxor_in_range; [done|apply size_wrap_range].
  - intros E%lxor_cancel_l. unfold size_wrap in E.
    rewrite !Zplus_mod_idemp_l in E.
    rewrite <- !(Z.add_assoc (_ mod _)), !Zplus_mod_idemp_l in E.
    set (k := Z.shiftl seed 6 mod 2 ^ 64 + Z.shiftr seed 2) in *.
    clearbody k.
    assert ((std_hash v - std_hash v') mod 2 ^ 64 = 0) as Hdiff.
    { replace (std_hash v - std_hash v')
        with ((std_hash v + 0x9e3779b9 + k) - (std_hash v' + 0x9e3779b9 + k))
        by lia.
      by rewrite Zminus_mod, E, Z.sub_diag. }
    apply Z.mod_divide in Hdiff as [c Hc]; [|lia]. lia.
Qed.
End hashing.

(** ** Writes seen by the searches, and the keys of the table *)

Section table_keys.
Context {state_trait action_trait value_type : Type}.
Context `{Countable state_trait} `{Countable action_trait}.
Context `{!ValueType value_type}.
Context `{!Iteration action_trait value_type}.

#[local] Abbreviation state := (state state_trait value_type).
#[local] Abbreviation action := (action action_trait).
#[local] Abbreviation policy := (policy state_trait action_trait value_type).

Implicit Types (p : policy) (s : state) (a : action) (q : value_type).

(** X19 (a write is seen by the searches): after [update(s, a, q)], where
    [<] orders the values stored for [s], [best_value(s)] is not below [q]
    and [best_action(s)] is not null. *)
Theorem best_value_after_update p s a q :
  strict_weak_check v_lt (map_to_list (recorded (update p s a q) s)).*2 = true →
  v_lt (best_value (update p s a q) s).1 q = false ∧
  (best_action (update p s a q) s).1 ≠ None.
Proof.
  intros Hord.
  assert (recorded (update p s a q) s !! a_trait a = Some q) as Ha
    by (by rewrite recorded_update, decide_True, lookup_insert_eq).
  assert (recorded (update p s a q) s ≠ ∅) as Hne
    by (intros E; by rewrite E, lookup_empty in Ha).
  rewrite best_value_eq, best_action_eq.
  destruct (largest_recorded _ Hne Hord) as (k & v & -> & _ & Hup). simpl.
  split; [by apply (Hup (a_trait a))|done].
Qed.

(** X20 (the keys only grow): every operation of the table leaves the set
    of its states as it was plus the state it was called on, a read as much
    as a write; no operation removes a state. *)
Theorem operations_add_their_state p s a q :
  dom (policies (update p s a q)) = {[s_trait s]} ∪ dom (policies p) ∧
  dom (policies (value p s a).2) = {[s_trait s]} ∪ dom (policies p) ∧
  dom (policies (best_value p s).2) = {[s_trait s]} ∪ dom (policies p) ∧
  dom (policies (best_action p s).2) = {[s_trait s]} ∪ dom (policies p) ∧
  dom (policies (actions p s).2) = {[s_trait s]} ∪ dom (policies p).
Proof.
  rewrite update_eq, value_eq, best_value_eq, best_action_eq, actions_eq.
  simpl. by rewrite !dom_insert_L.
Qed.
End table_keys.

(** ** The update rules below the last index *)

Section update_rules.
Import Probabilistic.
Context {state_trait action_trait value_type : Type}.
Context `{Countable state_trait} `{Countable action_trait}.
Context `{!ValueType value_type}.
Context `{!Iteration action_trait value_type}.

#[local] Abbreviation markov_chain := (markov_chain state_trait action_trait value_type).
#[local] Abbreviation policy := (policy state_trait action_trait value_type).
#[local] Abbreviation link := (link state_trait action_trait value_type).
#[local] Abbreviation q_probabilistic := (q_probabilistic state_trait action_trait value_type).

Implicit Types (ql : Learning.q_learning value_type) (qp : q_probabilistic)
  (e : markov_chain) (p : policy) (step next : link) (numerator_first : bool).

(** X21 (the deterministic rule): at an index below the last, one step of
    [q_learning::operator()] stores [q + alpha * (r + gamma * q_next - q)]
    for the pair of its link, where [q] is read first by [value] (a zero
    when the pair was absent), [q_next] is then read by [best_value] for
    the state of the next link, and [r] is the reward of the link's own
    state. *)
Theorem deterministic_update_rule ql e p j step next :
  0 ≤ j < deque_size e - 1 → deque_size e < 2 ^ 32 →
  e !! Z.to_nat j = Some step → e !! Z.to_nat (j + 1) = Some next →
  ∃ p',
    Learning.update_step ql e j p = Done p' ∧
    stored p' (l_state step) (l_action step) =
    Some (v_add (value p (l_state step) (l_action step)).1
            (v_mul (Learning.alpha ql)
               (v_sub
                  (v_add (s_reward (l_state step))
                     (v_mul (Learning.gamma ql)
                        (best_value (value p (l_state step) (l_action step)).2
                           (l_state next)).1))
                  (value p (l_state step) (l_action step)).1))).
Proof.
  intros Hj Hn Hstep Hnext.
  rewrite (learning_update_step_inner ql e p j step next) by done.
  eexists. split; [done|]. apply stored_update_same.
Qed.

(** X22 (the probabilistic rule): at an index below the last whose
    transition has the count [c] in the memory, one step of the update pass
    stores [prob * r + gamma * (q_next * prob)] for the pair of its link,
    with [prob] the integer quotient of [c] by the number of distinct
    successors of the pair, converted to [value_type]: [prob] is zero
    whenever the count is below that number. *)
Theorem probabilistic_update_rule numerator_first qp e p j step next c :
  0 ≤ j < deque_size e - 1 → deque_size e < 2 ^ 32 →
  e !! Z.to_nat j = Some step → e !! Z.to_nat (j + 1) = Some next →
  entry_of (memory qp) (s_trait (l_state step)) (a_trait (l_action step))
    (s_trait (l_state next)) = Some c →
  let successors :=
    successors_of (memory qp) (s_trait (l_state step)) (a_trait (l_action step)) in
  let prob := v_of_size_t (c / successors) in
  let q_next :=
    (best_value (value p (l_state step) (l_action step)).2 (l_state next)).1 in
  (∃ p',
     update_step numerator_first e j (p, qp) = Done (p', qp) ∧
     stored p' (l_state step) (l_action step) =
     Some (v_add (v_mul prob (s_reward (l_state step)))
             (v_mul (gamma qp) (v_mul q_next prob)))) ∧
  (0 ≤ c < successors → prob = v_of_size_t 0).
Proof.
  intros Hj Hn Hstep Hnext Hc successors prob q_next. split.
  - unfold update_step. simpl.
    rewrite (probabilistic_q_value_inner _ _ _ _ _ step next c) by done.
    simpl. eexists. split; [done|]. apply stored_update_same.
  - intros Hsmall. unfold prob. by rewrite Z.div_small.
Qed.
End update_rules.

(** ** The best value under two orders of traversal *)

Section traversal.
Context {state_trait action_trait value_type : Type}.
Context `{Countable state_trait} `{Countable action_trait}.
Context `{!ValueType value_type}.
Context (first second : Iteration action_trait value_type).

#[local] Abbreviation state := (state state_trait value_type).
#[local] Abbreviation policy := (policy state_trait action_trait value_type).

Implicit Types (p : policy) (s : state).

(** X23 ([best_value] does not depend on the traversal): where [<] is a
    strict weak ordering on the values stored for a state and orders every
    two different ones, [best_value] returns the same value and leaves the
    same table under any two orders of traversal of the action map. *)
Theorem best_value_any_traversal p s :
  strict_weak_check v_lt (map_to_list (recorded p s)).*2 = true →
  (∀ x y, x ∈ (map_to_list (recorded p s)).*2 →
          y ∈ (map_to_list (recorded p s)).*2 →
          v_lt x y = false → v_lt y x = false → x = y) →
  best_value (Iteration0 := first) p s = best_value (Iteration0 := second) p s.
Proof.
  intros Hord Htotal.
  rewrite (best_value_eq (Iteration0 := first)),
    (best_value_eq (Iteration0 := second)).
  f_equal.
  destruct (decide (recorded p s = ∅)) as [E|Hne].
  - rewrite E, !iterate_empty. done.
  - destruct (largest_recorded (Iteration0 := first) _ Hne Hord)
      as (k1 & v1 & -> & Hk1 & Hup1).
    destruct (largest_recorded (Iteration0 := second) _ Hne Hord)
      as (k2 & v2 & -> & Hk2 & Hup2).
    simpl. apply Htotal.
    + apply list_elem_of_fmap. exists (k1, v1). split; [done|].
      by apply elem_of_map_to_list.
    + apply list_elem_of_fmap. exists (k2, v2). split; [done|].
      by apply elem_of_map_to_list.
    + by apply (Hup1 k2).
    + by apply (Hup2 k1).
Qed.
End traversal.

(** ** The further properties at concrete inputs *)

Section more_samples.
Import Probabilistic Sample.
#[local] Existing Instance canonical_iteration.



(** [<] on numbers is a strict order. *)
Lemma nat_strict_order : strict_order (trait_lt (T := nat)).
Proof.
  split.
  - intros t. apply Nat.ltb_irrefl.
  - intros t u v Htu%Nat.ltb_lt Huv%Nat.ltb_lt. apply Nat.ltb_lt. lia.
Defined.

Lemma link_lt_strict_order_witness :
  link_ltb (Link s0 a0) (Link s0 a0) = false ∧
  (link_ltb (Link s0 a0) (Link s1 a1) = true →
   link_ltb (Link s1 a1) (Link s0 a0) = false) ∧
  (link_ltb (Link s0 a0) (Link s1 a1) = true →
   link_ltb (Link s1 a1) (Link east (Action 2%nat)) = true →
   link_ltb (Link s0 a0) (Link east (Action 2%nat)) = true) ∧
  (link_eqb (Link s0 a0) (Link s1 a1) = true →
   link_ltb (Link s0 a0) (Link s1 a1) = false ∧
   link_ltb (Link s1 a1) (Link s0 a0) = false).
Proof.
  apply (link_lt_strict_order (Link s0 a0) (Link s1 a1)
           (Link east (Action 2%nat))); apply nat_strict_order.
Defined.

(** The links [(0, 0)], [(1, 1)] and [(1, 0)]. *)
Lemma link_lt_not_strict_weak_witness :
  link_ltb (Link s0 a0) (Link west a1) = true ∧
  link_ltb (Link s0 a0) (Link west a0) = false ∧
  link_ltb (Link west a0) (Link s0 a0) = false ∧
  link_ltb (Link west a0) (Link west a1) = false ∧
  link_ltb (Link west a1) (Link west a0) = false ∧
  ¬ strict_weak_on link_ltb [Link s0 a0; Link west a1; Link west a0].
Proof.
  apply (link_lt_not_strict_weak 0%nat 1%nat 0%nat 1%nat 0%float); reflexivity.
Defined.

(** Index 2 of the episode of two links. *)
Lemma q_value_out_of_range_witness :
  Learning.q_value half_rate two_steps 2 fresh = Undefined OutOfBounds ∧
  q_value true fresh_probabilistic two_steps 2 fresh = Undefined OutOfBounds.
Proof.
  apply (q_value_out_of_range half_rate fresh_probabilistic true two_steps fresh 2);
    [lia|unfold deque_size; simpl; lia].
Defined.

Lemma operator_calls_return_witness :
  ∃ p1 p2 qp2, ∀ fuel, (length branching < fuel)%nat →
    Learning.operator_call fuel half_rate branching fresh = Done p1 ∧
    operator_call false fuel fresh_probabilistic branching fresh = Done (p2, qp2).
Proof.
  apply (operator_calls_return half_rate fresh_probabilistic false branching fresh).
  reflexivity.
Defined.

(** An episode of [2 ^ 32] links. *)
Lemma long_episode_never_returns_witness :
  (∀ p', Learning.operator_call 9 half_rate
            (replicate (Z.to_nat (2 ^ 32)) (Link s0 a0)) fresh ≠ Done p') ∧
  (∀ r, operator_call true 9 fresh_probabilistic
          (replicate (Z.to_nat (2 ^ 32)) (Link s0 a0)) fresh ≠ Done r).
Proof.
  apply (long_episode_never_returns half_rate fresh_probabilistic true
           (replicate (Z.to_nat (2 ^ 32)) (Link s0 a0)) fresh 9).
  unfold deque_size. rewrite length_replicate. lia.
Defined.

(** The pair [(east, go)] is no link of [two_steps]. *)
Lemma operator_call_frame_witness :
  (∃ p', Learning.operator_call 3 half_rate two_steps tied = Done p' ∧
         stored p' east go = stored tied east go) ∧
  (∃ p' qp', operator_call true 3 fresh_probabilistic two_steps tied
             = Done (p', qp') ∧
         stored p' east go = stored tied east go).
Proof.
  apply (operator_call_frame half_rate fresh_probabilistic true two_steps tied
           3 east go); [|reflexivity|simpl; lia].
  intros l Hl. apply elem_of_cons in Hl as [->|Hl]; [reflexivity|].
  apply elem_of_cons in Hl as [->|Hl]; [reflexivity|].
  by apply elem_of_nil in Hl.
Defined.

Lemma single_link_episode_witness :
  Learning.operator_call 2 half_rate [Link s1 a1] fresh
  = Done (update fresh s1 a1 1%float) ∧
  operator_call true 2 fresh_probabilistic [Link s1 a1] fresh
  = Done (update fresh s1 a1 1%float, fresh_probabilistic).
Proof.
  apply (single_link_episode half_rate fresh_probabilistic true fresh
           (Link s1 a1) 2). lia.
Defined.

(** Index 0 of [two_steps] on an instance that has accounted nothing. *)
Lemma unaccounted_pair_reads_witness :
  q_value false fresh_probabilistic two_steps 0 fresh = Undefined DivisionByZero.
Proof.
  apply (unaccounted_pair_reads fresh_probabilistic two_steps fresh 0
           (Link s0 a0) (Link s1 a1));
    [vm_compute; split; congruence|reflexivity|reflexivity|reflexivity|reflexivity].
Defined.

Lemma memory_only_grows_witness :
  ∃ p' qp',
    operator_call true 5 fresh_probabilistic branching fresh = Done (p', qp') ∧
    gamma qp' = gamma fresh_probabilistic ∧
    (∀ s a n, is_Some (entry_of (memory fresh_probabilistic) s a n) →
              is_Some (entry_of (memory qp') s a n)) ∧
    (∀ i s a n, transition_at branching i = Some (s, a, n) →
                is_Some (entry_of (memory qp') s a n)).
Proof.
  apply (memory_only_grows true fresh_probabilistic branching fresh 5);
    [reflexivity|simpl; lia].
Defined.

(** The hashes 1 and 2 combined with the seed 7. *)
Lemma hash_combine_separates_witness :
  0 ≤ hash_combine 7 1%nat < 2 ^ 64 ∧
  (hash_combine 7 1%nat = hash_combine 7 2%nat →
   std_hash 1%nat = std_hash 2%nat).
Proof.
  apply (hash_combine_separates 7 1%nat 2%nat); simpl; lia.
Defined.

(** A write of [9.0] for a fourth action of [s0] in [tied]. *)
Lemma best_value_after_update_witness :
  PrimFloat.ltb (best_value (update tied s0 (Action 4%nat) 9%float) s0).1 9%float
  = false ∧
  (best_action (update tied s0 (Action 4%nat) 9%float) s0).1 ≠ None.
Proof.
  exact (best_value_after_update tied s0 (Action 4%nat) 9%float eq_refl).
Defined.

(** Index 0 of the episode of two links, on the fresh table. *)
Lemma deterministic_update_rule_witness :
  ∃ p',
    Learning.update_step half_rate two_steps 0 fresh = Done p' ∧
    stored p' s0 a0 =
    Some (v_add (value fresh s0 a0).1
            (v_mul 0.5%float
               (v_sub
                  (v_add 0%float
                     (v_mul 0.9%float (best_value (value fresh s0 a0).2 s1).1))
                  (value fresh s0 a0).1))).
Proof.
  apply (deterministic_update_rule half_rate two_steps fresh 0
           (Link s0 a0) (Link s1 a1));
    [vm_compute; split; congruence|reflexivity|reflexivity|reflexivity].
Defined.

Example branching_memory_is_accounted :
  accounting_pass 5 branching fresh_probabilistic = Done branching_memory.
Proof. by vm_compute. Qed.

(** Index 0 of [branching] with the memory it leaves: the count 1 over 2
    successors. *)
Lemma probabilistic_update_rule_witness :
  v_of_size_t (1 / successors_of (memory branching_memory) 0%nat 0%nat)
  = v_of_size_t 0.
Proof.
  apply (probabilistic_update_rule true branching_memory branching fresh 0
           (Link home go) (Link west go) 1);
    [vm_compute; split; congruence|reflexivity|reflexivity|reflexivity
    |reflexivity|vm_compute; split; congruence].
Defined.

(** The values of [tied], which [<] orders, under the two traversals. *)
Lemma best_value_any_traversal_witness :
  best_value (Iteration0 := canonical_iteration nat float) tied s0
  = best_value (Iteration0 := reversed_iteration nat float) tied s0.
Proof.
  apply (best_value_any_traversal (canonical_iteration nat float)
           (reversed_iteration nat float) tied s0); [reflexivity|].
  intros x y Hx Hy.
  change ((map_to_list (recorded tied s0)).*2)
    with [7.5%float; 7.5%float; 3%float] in Hx, Hy.
  repeat (apply elem_of_cons in Hx as [->|Hx]);
    repeat (apply elem_of_cons in Hy as [->|Hy]);
    try (by apply elem_of_nil in Hx); try (by apply elem_of_nil in Hy);
    try reflexivity; vm_compute; congruence.
Defined.
End more_samples.
